(** * Frame resolver and feature smoother of audio-reactive-visuals

    A shallow embedding of the mapping utilities (lerp, getFrameIndex,
    getFrameAtTime, getDominantPitch, createSmoother, createObjectSmoother)
    and the properties the specification states about them.

    Numbers.  A JavaScript number is modelled as a rational [Q]; [===]
    on numbers is [Qeq].  The main embedding computes exactly.  Where a
    property depends on the rounding of binary64, two companions carry
    it: [Rounded] is the same code with a rounding function applied to
    the result of every arithmetic operation, and [Binary64] is the same
    code on the kernel's binary64 numbers, for running it on given
    inputs.  The places where the source leaves the finite numbers (a
    division by zero, an arithmetic operation on [undefined]) are kept
    visible: the embedding returns a separate outcome there instead of
    inventing a value.

    Objects.  A plain object used as a table is modelled by its own
    properties, a finite map, together with the members it inherits from
    [Object.prototype]. *)

From Stdlib Require Import QArith Qabs Qround Lqa Lia.
From stdpp Require Import base option list gmap strings pretty.
From Stdlib Require PrimFloat.

Set Warnings "-inexact-float,-clear-no-such-hyp".

Local Open Scope Q_scope.

(** ** Outcome of running a piece of the source *)

Module Js.

(** [TypeError]: a property is read from [undefined], a value that is
    not a function is called, or a built-in refuses its arguments.
    [OutOfFuel]: the loop budget of the embedding is used up. *)
Inductive Exec (A : Type) : Type :=
| Done (a : A)
| TypeError
| OutOfFuel.

Arguments Done {A} a.
Arguments TypeError {A}.
Arguments OutOfFuel {A}.

Definition bind {A B : Type} (m : Exec A) (k : A -> Exec B) : Exec B :=
  match m with
  | Done a => k a
  | TypeError => TypeError
  | OutOfFuel => OutOfFuel
  end.

(** [o.field] where [o] may be [undefined]. *)
Definition deref {A : Type} (o : option A) : Exec A :=
  match o with
  | Some a => Done a
  | None => TypeError
  end.

End Js.

Import Js.

Notation "'let!' x ':=' m 'in' k" := (Js.bind m (fun x => k))
  (at level 10, x name, m at level 100, k at level 200).

(** ** Data model *)

(** One analysis frame.  [centroid_hz] is the optional raw-Hz companion
    of [centroid]: [None] stands for a value that is not a number
    ([undefined] in a stored frame, [NaN] after arithmetic). *)
Record Frame : Type := mkFrame {
  time : Q;
  rms : Q;
  centroid : Q;
  centroid_hz : option Q;
  contrast : Q;
  onset : Q;
  harmonic : Q;
  percussive : Q;
  bands : list Q;
  chroma : list Q
}.

(** What getFrameAtTime hands back.
    [Null]: the value [null].
    [Empty]: the object [{}], the spread of [undefined].
    [Snap f]: an object whose fields are the finite numbers of [f].
    [NonFinite t]: an object with [time = t] some of whose feature
    fields are [NaN] or infinite; those values are outside [Q]. *)
Inductive Snapshot : Type :=
| Null
| Empty
| Snap (f : Frame)
| NonFinite (t : Q).

Definition isObject (s : Snapshot) : bool :=
  match s with
  | Null => false
  | _ => true
  end.

(** The [time] field of a returned object. *)
Definition snapshotTime (s : Snapshot) : option Q :=
  match s with
  | Snap f => Some (time f)
  | NonFinite t => Some t
  | Null | Empty => None
  end.

(** ** Mapping utilities *)

Definition lerp (current target factor : Q) : Q :=
  current + (target - current) * factor.

(** [lerp] on a value that may be missing: arithmetic on [undefined]
    gives [NaN]. *)
Definition lerpOpt (current target : option Q) (factor : Q) : option Q :=
  match current, target with
  | Some c, Some g => Some (lerp c g factor)
  | _, _ => None
  end.

(** [cur.map((v, i) => lerp(v, next[i], t))]; [None] when some [next[i]]
    is [undefined], which makes that element [NaN]. *)
Definition lerpAt (next : list Q) (t : Q) (i : nat) (v : Q) : option Q :=
  match next !! i with
  | Some w => Some (lerp v w t)
  | None => None
  end.

Definition lerpVec (cur next : list Q) (t : Q) : option (list Q) :=
  mapM id (imap (lerpAt next t) cur).

(** The binary search of getFrameIndex: [while (low < high)].  Indices are
    array positions, so [nat]; [mid - 1] is only taken with [mid >= 1]. *)
Fixpoint searchLoop (fuel : nat) (frames : list Frame) (t : Q)
    (low high : nat) : Exec nat :=
  if (low <? high)%nat then
    match fuel with
    | O => OutOfFuel
    | S fuel' =>
        let mid := ((low + high + 1) / 2)%nat in
        let! f := deref (frames !! mid) in
        if Qle_bool (time f) t
        then searchLoop fuel' frames t mid high
        else searchLoop fuel' frames t low (mid - 1)%nat
    end
  else Done low.

(** [frames] is [None] when the argument is [null] or [undefined]. *)
Definition getFrameIndex (frames : option (list Frame)) (t : Q) : Exec nat :=
  match frames with
  | None => Done 0%nat
  | Some [] => Done 0%nat
  | Some l => searchLoop (length l) l t 0 (length l - 1)
  end.

(** The object literal of the interpolating branch.  The branch is taken
    with [frame.time] different from [t], so a zero span makes the
    fraction infinite and every [lerp] with it infinite or [NaN]; so does
    a [next[i]] that is [undefined] for that element. *)
Definition interpolate (frame nextFrame : Frame) (t : Q) : Snapshot :=
  let span := time nextFrame - time frame in
  if Qeq_bool span 0 then NonFinite t
  else
    let k := (t - time frame) / span in
    match lerpVec (bands frame) (bands nextFrame) k,
          lerpVec (chroma frame) (chroma nextFrame) k with
    | Some bs, Some cs =>
        Snap {| time := t;
                rms := lerp (rms frame) (rms nextFrame) k;
                centroid := lerp (centroid frame) (centroid nextFrame) k;
                centroid_hz :=
                  lerpOpt (centroid_hz frame) (centroid_hz nextFrame) k;
                contrast := lerp (contrast frame) (contrast nextFrame) k;
                onset := lerp (onset frame) (onset nextFrame) k;
                harmonic := lerp (harmonic frame) (harmonic nextFrame) k;
                percussive := lerp (percussive frame) (percussive nextFrame) k;
                bands := bs;
                chroma := cs |}
    | _, _ => NonFinite t
    end.

Definition getFrameAtTime (frames : option (list Frame)) (t : Q)
    : Exec Snapshot :=
  match frames with
  | None => Done Null
  | Some [] => Done Null
  | Some l =>
      let! idx := getFrameIndex (Some l) t in
      let frame := l !! idx in
      if (length l - 1 <=? idx)%nat then
        Done (match frame with Some f => Snap f | None => Empty end)
      else
        let! f := deref frame in
        if Qeq_bool (time f) t then Done (Snap f)
        else
          let! nextFrame := deref (l !! (idx + 1)%nat) in
          Done (interpolate f nextFrame t)
  end.

(** [chroma[i] > maxVal] *)
Definition Qgt_bool (x y : Q) : bool := negb (Qle_bool x y).

(** The [for] loop of getDominantPitch over [chroma[i..]]. *)
Fixpoint pitchLoop (rest : list Q) (i maxIdx : nat) (maxVal : Q) : nat :=
  match rest with
  | [] => maxIdx
  | c :: rest' =>
      if Qgt_bool c maxVal
      then pitchLoop rest' (S i) i c
      else pitchLoop rest' (S i) maxIdx maxVal
  end.

(** On an empty array [maxVal] is [undefined] and the loop does not run. *)
Definition getDominantPitch (chroma : list Q) : nat :=
  match chroma with
  | [] => 0%nat
  | c0 :: rest => pitchLoop rest 1 0 c0
  end.

(** ** Smoothers *)

(** The closure returned by createSmoother: the captured [factor] and the
    mutable [value] ([None] is [null]). *)
Record Smoother : Type := mkSmoother {
  factor : Q;
  value : option Q
}.

(** [createSmoother(factor = 0.1)]; [None] is an omitted argument. *)
Definition createSmoother (factor : option Q) : Smoother :=
  {| factor := default (1 # 10) factor; value := None |}.

(** One call [smooth(target)]: the returned number and the closure after
    the call. *)
Definition smooth (s : Smoother) (target : Q) : Q * Smoother :=
  let v := match value s with
           | None => target
           | Some v => lerp v target (factor s)
           end in
  (v, {| factor := factor s; value := Some v |}).

Arguments smooth : simpl never.

(** Successive calls on one smoother: the outputs, in order. *)
Fixpoint feed (s : Smoother) (targets : list Q) : list Q :=
  match targets with
  | [] => []
  | x :: xs => (smooth s x).1 :: feed (smooth s x).2 xs
  end.

(** The closure after the calls. *)
Fixpoint stateAfter (s : Smoother) (targets : list Q) : Smoother :=
  match targets with
  | [] => s
  | x :: xs => stateAfter (smooth s x).2 xs
  end.



Definition defaultFactor : Q := 15 # 100.

(** *** Plain objects used as tables *)

(** The property names every plain object inherits from
    [Object.prototype]. *)
Definition inheritedKeys : list string :=
  ["constructor"; "hasOwnProperty"; "isPrototypeOf"; "propertyIsEnumerable";
   "toLocaleString"; "toString"; "valueOf"; "__defineGetter__";
   "__defineSetter__"; "__lookupGetter__"; "__lookupSetter__"; "__proto__"]%string.

Definition inherited (key : string) : bool :=
  bool_decide (key ∈ inheritedKeys).

(** What [o[key]] reads on a plain object whose own properties are [own]:
    the own value, else the function or object inherited under that
    name, else [undefined]. *)
Inductive Property (A : Type) : Type :=
| Own (a : A)
| Inherited
| Undefined.

Arguments Own {A} a.
Arguments Inherited {A}.
Arguments Undefined {A}.

Definition get {A : Type} (own : gmap string A) (key : string) : Property A :=
  match own !! key with
  | Some a => Own a
  | None => if inherited key then Inherited else Undefined
  end.

(** A value stored in the object a call returns: a number, or a value of
    another kind (an object, a string, a boolean, [undefined]). *)
Inductive Value : Type :=
| Number (q : Q)
| Other.

(** The inherited members that throw a [TypeError] when called with one
    number: [__defineGetter__] and [__defineSetter__] want a function as
    second argument, and [__proto__] reads as [Object.prototype], which is
    not a function. *)
Definition throwsWhenCalled (key : string) : bool :=
  bool_decide (key ∈ ["__defineGetter__"; "__defineSetter__"; "__proto__"]%string).

(** [smoothers[key](x)] where [smoothers[key]] is the inherited member:
    [Object(x)], a string, a boolean, [undefined] or the table itself,
    none of them a number. *)
Definition callInherited (key : string) : Exec Value :=
  if throwsWhenCalled key then TypeError else Done Other.

(** The closure returned by createObjectSmoother: the captured [factors]
    object and the [smoothers] table, each a plain object given by its
    own properties. *)
Record ObjectSmoother : Type := mkObjectSmoother {
  factors : gmap string Q;
  smoothers : gmap string Smoother
}.

(** [createObjectSmoother(factors = {})] *)
Definition createObjectSmoother (factors : option (gmap string Q))
    : ObjectSmoother :=
  {| factors := default ∅ factors; smoothers := ∅ |}.

(** [factors[key] || defaultFactor]: [undefined] and [0] are falsy.
    [None] is the value inherited under [key], which is truthy and not a
    number. *)
Definition factorFor (factors : gmap string Q) (key : string) : option Q :=
  match get factors key with
  | Own f => if Qeq_bool f 0 then Some defaultFactor else Some f
  | Inherited => None
  | Undefined => Some defaultFactor
  end.

(** The body of the [for (const key in obj)] loop, on [result] and
    [smoothers], for the property [key] with value [x].  A smoother is
    made only when [smoothers[key]] is falsy, which an inherited member
    never is. *)
Definition smoothKey (factors : gmap string Q)
    (result : gmap string Value) (smoothers : gmap string Smoother)
    (key : string) (x : Q)
    : Exec (gmap string Value) * gmap string Smoother :=
  let factor := factorFor factors key in
  match get smoothers key with
  | Own s =>
      (Done (<[key := Number (smooth s x).1]> result),
       <[key := (smooth s x).2]> smoothers)
  | Inherited =>
      (let! v := callInherited key in Done (<[key := v]> result), smoothers)
  | Undefined =>
      match factor with
      | Some f =>
          let s := createSmoother (Some f) in
          (Done (<[key := Number (smooth s x).1]> result),
           <[key := (smooth s x).2]> smoothers)
      | None => (TypeError, smoothers)
      end
  end.

(** The loop over the enumerable properties of [obj], in the order
    [for]-[in] visits them.  A call that throws leaves the table as the
    rounds before the throw made it. *)
Fixpoint smoothLoop (factors : gmap string Q) (entries : list (string * Q))
    (result : gmap string Value) (smoothers : gmap string Smoother)
    : Exec (gmap string Value) * gmap string Smoother :=
  match entries with
  | [] => (Done result, smoothers)
  | (key, x) :: rest =>
      match smoothKey factors result smoothers key x with
      | (Done result', smoothers') => smoothLoop factors rest result' smoothers'
      | thrown => thrown
      end
  end.

(** One call [smooth(obj)] of the aggregate smoother: what it returns and
    the closure after the call.  [obj] is given by its properties in
    enumeration order. *)
Definition smoothObject (os : ObjectSmoother) (obj : list (string * Q))
    : Exec (gmap string Value) * ObjectSmoother :=
  let run := smoothLoop (factors os) obj ∅ (smoothers os) in
  (run.1, {| factors := factors os; smoothers := run.2 |}).

(** Successive calls on one aggregate smoother: the outcome of each. *)
Fixpoint feedObject (os : ObjectSmoother) (objs : list (list (string * Q)))
    : list (Exec (gmap string Value)) :=
  match objs with
  | [] => []
  | obj :: rest =>
      (smoothObject os obj).1 :: feedObject (smoothObject os obj).2 rest
  end.

(** The smoother the aggregate uses for a feature [key] of
    responsiveness [r]: the stored one, or a new one when the key has not
    been seen. *)
Definition smootherFor (r : Q) (smoothers : gmap string Smoother)
    (key : string) : Smoother :=
  default (createSmoother (Some r)) (smoothers !! key).

(** [obj[key]] for an own property of [obj]. *)
Definition property (key : string) (obj : list (string * Q)) : option Q :=
  (list_to_map obj : gmap string Q) !! key.

(** [result[key]] of a call that returned. *)
Definition resultAt (key : string) (r : Exec (gmap string Value))
    : option Value :=
  match r with
  | Done result => result !! key
  | _ => None
  end.

(** An object as the loop sees it: distinct property names, none of them
    an inherited member that throws when called. *)
Definition smoothable (obj : list (string * Q)) : Prop :=
  NoDup obj.*1 /\ Forall (fun entry => throwsWhenCalled entry.1 = false) obj.

(** ** Arithmetic with rounding

    In the source every arithmetic operation returns the binary64 number
    nearest to its exact result.  [Rounded] is the embedding with that
    rounding written out: [rnd] is applied to the exact result of each
    operation.  Comparisons are exact in binary64, so getFrameIndex is
    the function above.  With the identity for [rnd] the definitions
    below are those above. *)

Module Rounded.

Section Arithmetic.

Variable rnd : Q -> Q.

Definition lerp (current target factor : Q) : Q :=
  rnd (current + rnd (rnd (target - current) * factor)).

Definition lerpOpt (current target : option Q) (factor : Q) : option Q :=
  match current, target with
  | Some c, Some g => Some (lerp c g factor)
  | _, _ => None
  end.

Definition lerpAt (next : list Q) (t : Q) (i : nat) (v : Q) : option Q :=
  match next !! i with
  | Some w => Some (lerp v w t)
  | None => None
  end.

Definition lerpVec (cur next : list Q) (t : Q) : option (list Q) :=
  mapM id (imap (lerpAt next t) cur).

(** The object literal of the interpolating branch, for the fraction
    [k]. *)
Definition blend (frame nextFrame : Frame) (t k : Q) : Snapshot :=
  match lerpVec (bands frame) (bands nextFrame) k,
        lerpVec (chroma frame) (chroma nextFrame) k with
  | Some bs, Some cs =>
      Snap {| time := t;
              rms := lerp (rms frame) (rms nextFrame) k;
              centroid := lerp (centroid frame) (centroid nextFrame) k;
              centroid_hz :=
                lerpOpt (centroid_hz frame) (centroid_hz nextFrame) k;
              contrast := lerp (contrast frame) (contrast nextFrame) k;
              onset := lerp (onset frame) (onset nextFrame) k;
              harmonic := lerp (harmonic frame) (harmonic nextFrame) k;
              percussive := lerp (percussive frame) (percussive nextFrame) k;
              bands := bs;
              chroma := cs |}
  | _, _ => NonFinite t
  end.

(** [t = (time - frame.time) / (nextFrame.time - frame.time)], then the
    object literal. *)
Definition interpolate (frame nextFrame : Frame) (t : Q) : Snapshot :=
  let span := rnd (time nextFrame - time frame) in
  if Qeq_bool span 0 then NonFinite t
  else blend frame nextFrame t (rnd (rnd (t - time frame) / span)).

Definition getFrameAtTime (frames : option (list Frame)) (t : Q)
    : Exec Snapshot :=
  match frames with
  | None => Done Null
  | Some [] => Done Null
  | Some l =>
      let! idx := getFrameIndex (Some l) t in
      let frame := l !! idx in
      if (length l - 1 <=? idx)%nat then
        Done (match frame with Some f => Snap f | None => Empty end)
      else
        let! f := deref frame in
        if Qeq_bool (time f) t then Done (Snap f)
        else
          let! nextFrame := deref (l !! (idx + 1)%nat) in
          Done (interpolate f nextFrame t)
  end.

(** One call [smooth(target)] of the closure made by createSmoother. *)
Definition smooth (s : Smoother) (target : Q) : Q * Smoother :=
  let v := match value s with
           | None => target
           | Some v => lerp v target (factor s)
           end in
  (v, {| factor := factor s; value := Some v |}).

Fixpoint feed (s : Smoother) (targets : list Q) : list Q :=
  match targets with
  | [] => []
  | x :: xs => (smooth s x).1 :: feed (smooth s x).2 xs
  end.

Fixpoint stateAfter (s : Smoother) (targets : list Q) : Smoother :=
  match targets with
  | [] => s
  | x :: xs => stateAfter (smooth s x).2 xs
  end.

End Arithmetic.

End Rounded.

Arguments Rounded.smooth : simpl never.

(** ** Binary64 runs

    The same functions on the kernel's binary64 numbers, whose
    operations are those of IEEE 754 and so those of the source, for
    running the code on concrete inputs.  A number that is missing
    ([undefined]) makes the arithmetic on it [NaN]. *)

Module Binary64.

Import PrimFloat.

Local Open Scope float_scope.

Record Frame : Type := mkFrame {
  time : float;
  rms : float;
  centroid : float;
  centroid_hz : option float;
  contrast : float;
  onset : float;
  harmonic : float;
  percussive : float;
  bands : list float;
  chroma : list float
}.

Inductive Snapshot : Type :=
| Null
| Empty
| Snap (f : Frame).

Definition lerp (current target factor : float) : float :=
  current + (target - current) * factor.

Definition lerpOpt (current target : option float) (factor : float)
    : option float :=
  match current, target with
  | Some c, Some g => Some (lerp c g factor)
  | _, _ => Some nan
  end.

Definition lerpAt (next : list float) (t : float) (i : nat) (v : float)
    : float :=
  match next !! i with
  | Some w => lerp v w t
  | None => nan
  end.

Fixpoint searchLoop (fuel : nat) (frames : list Frame) (t : float)
    (low high : nat) : Exec nat :=
  if (low <? high)%nat then
    match fuel with
    | O => OutOfFuel
    | S fuel' =>
        let mid := ((low + high + 1) / 2)%nat in
        let! f := deref (frames !! mid) in
        if time f <=? t
        then searchLoop fuel' frames t mid high
        else searchLoop fuel' frames t low (mid - 1)%nat
    end
  else Done low.

Definition getFrameIndex (frames : option (list Frame)) (t : float)
    : Exec nat :=
  match frames with
  | None => Done 0%nat
  | Some [] => Done 0%nat
  | Some l => searchLoop (length l) l t 0 (length l - 1)
  end.

Definition interpolate (frame nextFrame : Frame) (t : float) : Frame :=
  let k := (t - time frame) / (time nextFrame - time frame) in
  {| time := t;
     rms := lerp (rms frame) (rms nextFrame) k;
     centroid := lerp (centroid frame) (centroid nextFrame) k;
     centroid_hz := lerpOpt (centroid_hz frame) (centroid_hz nextFrame) k;
     contrast := lerp (contrast frame) (contrast nextFrame) k;
     onset := lerp (onset frame) (onset nextFrame) k;
     harmonic := lerp (harmonic frame) (harmonic nextFrame) k;
     percussive := lerp (percussive frame) (percussive nextFrame) k;
     bands := imap (lerpAt (bands nextFrame) k) (bands frame);
     chroma := imap (lerpAt (chroma nextFrame) k) (chroma frame) |}.

Definition getFrameAtTime (frames : option (list Frame)) (t : float)
    : Exec Snapshot :=
  match frames with
  | None => Done Null
  | Some [] => Done Null
  | Some l =>
      let! idx := getFrameIndex (Some l) t in
      let frame := l !! idx in
      if (length l - 1 <=? idx)%nat then
        Done (match frame with Some f => Snap f | None => Empty end)
      else
        let! f := deref frame in
        if time f =? t then Done (Snap f)
        else
          let! nextFrame := deref (l !! (idx + 1)%nat) in
          Done (Snap (interpolate f nextFrame t))
  end.

Record Smoother : Type := mkSmoother {
  factor : float;
  value : option float
}.

Definition createSmoother (factor : option float) : Smoother :=
  {| factor := default 0.1 factor; value := None |}.

Definition smooth (s : Smoother) (target : float) : float * Smoother :=
  let v := match value s with
           | None => target
           | Some v => lerp v target (factor s)
           end in
  (v, {| factor := factor s; value := Some v |}).

Fixpoint feed (s : Smoother) (targets : list float) : list float :=
  match targets with
  | [] => []
  | x :: xs => (smooth s x).1 :: feed (smooth s x).2 xs
  end.

Fixpoint stateAfter (s : Smoother) (targets : list float) : Smoother :=
  match targets with
  | [] => s
  | x :: xs => stateAfter (smooth s x).2 xs
  end.


(** A frame at time [t] whose features all have the value [v]. *)
Definition sample (t v : float) : Frame :=
  {| time := t; rms := v; centroid := v; centroid_hz := Some v;
     contrast := v; onset := v; harmonic := v; percussive := v;
     bands := repeat v 7; chroma := repeat v 12 |}.

End Binary64.

Arguments Binary64.smooth : simpl never.

(** ** Properties of frame sequences used in the statements *)

(** Times never decrease from one frame to the next. *)
Fixpoint ascending (l : list Frame) : bool :=
  match l with
  | f :: (g :: _) as tl => Qle_bool (time f) (time g) && ascending tl
  | _ => true
  end.

(** Times increase from one frame to the next. *)
Fixpoint strictlyAscending (l : list Frame) : bool :=
  match l with
  | f :: (g :: _) as tl => Qgt_bool (time g) (time f) && strictlyAscending tl
  | _ => true
  end.

(** [x] lies in the closed interval spanned by [a] and [b]. *)
Definition between (a b x : Q) : Prop :=
  (a <= x /\ x <= b) \/ (b <= x /\ x <= a).

(** Every element of [xs] lies between the elements of [as_] and [bs] at
    its position. *)
Definition betweenVec (as_ bs xs : list Q) : Prop :=
  length xs = length as_ /\
  forall (i : nat) (a b x : Q),
    as_ !! i = Some a -> bs !! i = Some b -> xs !! i = Some x ->
    between a b x.

(** Two frames carry vectors of the same lengths, as the frames of one
    dataset do. *)
Definition sameShape (f g : Frame) : Prop :=
  length (bands f) = length (bands g) /\
  length (chroma f) = length (chroma g).

(** Every feature of [s] lies between the same feature of [f] and of [g];
    for [centroid_hz], where both frames carry it. *)
Definition withinFrames (f g s : Frame) : Prop :=
  between (rms f) (rms g) (rms s) /\
  between (centroid f) (centroid g) (centroid s) /\
  between (contrast f) (contrast g) (contrast s) /\
  between (onset f) (onset g) (onset s) /\
  between (harmonic f) (harmonic g) (harmonic s) /\
  between (percussive f) (percussive g) (percussive s) /\
  betweenVec (bands f) (bands g) (bands s) /\
  betweenVec (chroma f) (chroma g) (chroma s) /\
  (forall a b : Q,
     centroid_hz f = Some a -> centroid_hz g = Some b ->
     exists x, centroid_hz s = Some x /\ between a b x).

(** Every element of [xs] is the [lerp] of the elements of [as_] and [bs]
    at its position. *)
Definition lerpOfVec (as_ bs : list Q) (k : Q) (xs : list Q) : Prop :=
  length xs = length as_ /\
  forall (i : nat) (a b : Q),
    as_ !! i = Some a -> bs !! i = Some b -> xs !! i = Some (lerp a b k).

(** Every feature of [s] is the [lerp] of that feature of [f] and of [g]
    with fraction [k]. *)
Definition lerpOf (f g : Frame) (k : Q) (s : Frame) : Prop :=
  rms s = lerp (rms f) (rms g) k /\
  centroid s = lerp (centroid f) (centroid g) k /\
  centroid_hz s = lerpOpt (centroid_hz f) (centroid_hz g) k /\
  contrast s = lerp (contrast f) (contrast g) k /\
  onset s = lerp (onset f) (onset g) k /\
  harmonic s = lerp (harmonic f) (harmonic g) k /\
  percussive s = lerp (percussive f) (percussive g) k /\
  lerpOfVec (bands f) (bands g) k (bands s) /\
  lerpOfVec (chroma f) (chroma g) k (chroma s).

(** ** Rounding, as the statements assume it *)

(** What is assumed of [rnd]: it never reverses an order, leaves a
    rounded number alone, and leaves 0 and 1 alone.  Rounding to the
    nearest binary64 number is such a function wherever it does not
    overflow; the statements keep their inputs in a range where it does
    not ([inRange] below). *)
Definition rounding (rnd : Q -> Q) : Prop :=
  (forall x y : Q, x <= y -> rnd x <= rnd y) /\
  (forall x : Q, rnd (rnd x) == rnd x) /\
  rnd 0 == 0 /\
  rnd 1 == 1.

(** [x] is a number of the arithmetic: rounding leaves it alone. *)
Definition representable (rnd : Q -> Q) (x : Q) : Prop := rnd x == x.

(** Every feature of [f] is a number of the arithmetic. *)
Definition representableFrame (rnd : Q -> Q) (f : Frame) : Prop :=
  representable rnd (rms f) /\
  representable rnd (centroid f) /\
  (forall a : Q, centroid_hz f = Some a -> representable rnd a) /\
  representable rnd (contrast f) /\
  representable rnd (onset f) /\
  representable rnd (harmonic f) /\
  representable rnd (percussive f) /\
  Forall (representable rnd) (bands f) /\
  Forall (representable rnd) (chroma f).

(** No operation rounds. *)
Definition exact (rnd : Q -> Q) : Prop := forall x : Q, rnd x == x.

(** [x] is at most 2^1022 in absolute value: the sum and the difference
    of two such numbers are below the overflow threshold of binary64. *)
Definition inRange (x : Q) : Prop := Qabs x <= 2 ^ 1022.

(** An input: a number of the arithmetic, in range. *)
Definition number (rnd : Q -> Q) (x : Q) : Prop :=
  representable rnd x /\ inRange x.

(** A frame of inputs. *)
Definition numberFrame (rnd : Q -> Q) (f : Frame) : Prop :=
  number rnd (time f) /\
  number rnd (rms f) /\
  number rnd (centroid f) /\
  (forall a : Q, centroid_hz f = Some a -> number rnd a) /\
  number rnd (contrast f) /\
  number rnd (onset f) /\
  number rnd (harmonic f) /\
  number rnd (percussive f) /\
  Forall (number rnd) (bands f) /\
  Forall (number rnd) (chroma f).

(** [lerpOfVec] and [lerpOf] for the arithmetic with rounding. *)
Definition roundedLerpOfVec (rnd : Q -> Q) (as_ bs : list Q) (k : Q)
    (xs : list Q) : Prop :=
  length xs = length as_ /\
  forall (i : nat) (a b : Q),
    as_ !! i = Some a -> bs !! i = Some b ->
    xs !! i = Some (Rounded.lerp rnd a b k).

Definition roundedLerpOf (rnd : Q -> Q) (f g : Frame) (k : Q) (s : Frame)
    : Prop :=
  rms s = Rounded.lerp rnd (rms f) (rms g) k /\
  centroid s = Rounded.lerp rnd (centroid f) (centroid g) k /\
  centroid_hz s = Rounded.lerpOpt rnd (centroid_hz f) (centroid_hz g) k /\
  contrast s = Rounded.lerp rnd (contrast f) (contrast g) k /\
  onset s = Rounded.lerp rnd (onset f) (onset g) k /\
  harmonic s = Rounded.lerp rnd (harmonic f) (harmonic g) k /\
  percussive s = Rounded.lerp rnd (percussive f) (percussive g) k /\
  roundedLerpOfVec rnd (bands f) (bands g) k (bands s) /\
  roundedLerpOfVec rnd (chroma f) (chroma g) k (chroma s).

(** ** The other mapping utilities *)

(** [x < y] *)
Definition Qlt_bool (x y : Q) : bool := negb (Qle_bool y x).

(** The functions of the [Math] object the utilities call. *)
Module Math.

Definition max (x y : Q) : Q := if Qle_bool x y then y else x.

Definition min (x y : Q) : Q := if Qle_bool x y then x else y.

Definition floor (x : Q) : Z := Qfloor x.

(** [Math.round]: the nearest integer, halves going up. *)
Definition round (x : Q) : Z := Qfloor (x + (1 # 2)).

End Math.

(** The integer part of [x], rounded towards zero. *)
Definition truncate (x : Q) : Z :=
  if Qle_bool 0 x then Qfloor x else Qceiling x.

(** The [%] operator on numbers, for a divisor that is not zero: the
    remainder takes the sign of the dividend. *)
Definition jsRem (x y : Q) : Q := x - y * inject_Z (truncate (x / y)).

(** [map(value, inMin, inMax, outMin, outMax)].  With [inMax === inMin]
    the division is by zero and the result is [NaN] or infinite, whatever
    the other arguments: [None]. *)
Definition map (value inMin inMax outMin outMax : Q) : option Q :=
  if Qeq_bool (inMax - inMin) 0 then None
  else Some ((value - inMin) / (inMax - inMin) * (outMax - outMin) + outMin).

Definition clamp (value min max : Q) : Q :=
  Math.min (Math.max value min) max.

(** [Math.pow(x, 2)] is [x * x]. *)
Definition easeInOut (t : Q) : Q :=
  let t := clamp t 0 1 in
  if Qlt_bool t (1 # 2)
  then 2 * t * t
  else 1 - ((-2 * t + 2) * (-2 * t + 2)) / 2.

Module Color.

Record RGB : Type := mkRGB { r : Z; g : Z; b : Z }.

(** The six hue sectors: the triple [(r, g, b)] before [m] is added. *)
Definition sector (h c x : Q) : Q * Q * Q :=
  if Qlt_bool h 60 then (c, x, 0)
  else if Qlt_bool h 120 then (x, c, 0)
  else if Qlt_bool h 180 then (0, c, x)
  else if Qlt_bool h 240 then (0, x, c)
  else if Qlt_bool h 300 then (x, 0, c)
  else (c, 0, x).

Definition hslToRgb (h s l : Q) : RGB :=
  let h := jsRem h 360 in
  let s := s / 100 in
  let l := l / 100 in
  let c := (1 - Qabs (2 * l - 1)) * s in
  let x := c * (1 - Qabs (jsRem (h / 60) 2 - 1)) in
  let m := l - c / 2 in
  let rgb := sector h c x in
  {| r := Math.round ((rgb.1.1 + m) * 255);
     g := Math.round ((rgb.1.2 + m) * 255);
     b := Math.round ((rgb.2 + m) * 255) |}.

End Color.

(** ** Helpers of the sketches that use the utilities *)

(** The total [xs.reduce((a, b) => a + b, 0)]. *)
Definition total (xs : list Q) : Q := foldl Qplus 0 xs.

(** [xs.slice(-n)]: the last [n] elements, all of them when there are
    fewer. *)
Definition sliceLast (n : nat) (xs : list Q) : list Q :=
  drop (length xs - n) xs.

(** [xs.push(x)] followed by [xs.shift()] when the length then exceeds
    [size]. *)
Definition pushBounded (size : nat) (xs : list Q) (x : Q) : list Q :=
  let xs' := xs ++ [x] in
  if (size <? length xs')%nat then drop 1 xs' else xs'.

Module TrailEcho.

(** The object [{ time, index }]. *)
Record NextBeat : Type := mkNextBeat { time : Q; index : nat }.

(** The [for] loop of getNextBeat from position [i] on. *)
Fixpoint nextBeatLoop (rest : list Q) (i : nat) (currentTime : Q)
    : option NextBeat :=
  match rest with
  | [] => None
  | beat :: rest' =>
      if Qgt_bool beat currentTime
      then Some {| time := beat; index := i |}
      else nextBeatLoop rest' (S i) currentTime
  end.

(** [None] is [null], as argument and as result. *)
Definition getNextBeat (currentTime : Q) (beats : option (list Q))
    : option NextBeat :=
  match beats with
  | None => None
  | Some [] => None
  | Some l => nextBeatLoop l 0 currentTime
  end.

End TrailEcho.

Module Mandala.

(** The [for (const beat of beats)] loop of getNearestBeat, with its
    [break] once a beat past [time] has been looked at. *)
Fixpoint nearestLoop (rest : list Q) (time nearest minDist : Q) : Q :=
  match rest with
  | [] => nearest
  | beat :: rest' =>
      let dist := Qabs (time - beat) in
      let closer := Qlt_bool dist minDist in
      let nearest' := if closer then beat else nearest in
      let minDist' := if closer then dist else minDist in
      if Qgt_bool beat time then nearest'
      else nearestLoop rest' time nearest' minDist'
  end.

Definition getNearestBeat (time : Q) (beats : option (list Q)) : Q :=
  match beats with
  | None => 0
  | Some [] => 0
  | Some (first :: rest) =>
      nearestLoop (first :: rest) time first (Qabs (time - first))
  end.

End Mandala.

Module StateMachine.

Inductive State : Type := AMBIENT | BUILDING | INTENSE | BREAKDOWN.

Definition isState (a b : State) : bool :=
  match a, b with
  | AMBIENT, AMBIENT | BUILDING, BUILDING
  | INTENSE, INTENSE | BREAKDOWN, BREAKDOWN => true
  | _, _ => false
  end.

Definition ENERGY_HISTORY_SIZE : nat := 60.
Definition ONSET_HISTORY_SIZE : nat := 30.

(** The module-level variables analyzeAndTransition reads and writes;
    [particles] is the length of the particle array. *)
Record Machine : Type := mkMachine {
  currentState : State;
  targetState : State;
  energyAccumulator : Q;
  energyHistory : list Q;
  onsetHistory : list Q;
  lastEnergy : Q;
  particles : nat
}.

(** The variables as the script declares them, with [count] particles. *)
Definition startup (count : nat) : Machine :=
  {| currentState := AMBIENT; targetState := AMBIENT;
     energyAccumulator := 0; energyHistory := []; onsetHistory := [];
     lastEnergy := 0; particles := count |}.

Definition getParticleCountForState (state : State) : nat :=
  match state with
  | AMBIENT => 30
  | BUILDING => 80
  | INTENSE => 200
  | BREAKDOWN => 10
  end.

(** The [if]/[else if] chain that picks [newState]. *)
Definition transition (currentState : State) (suddenDrop : bool)
    (energyAccumulator onsetDensity energyTrend : Q) : State :=
  if suddenDrop && isState currentState INTENSE then BREAKDOWN
  else if isState currentState BREAKDOWN
          && Qgt_bool energyAccumulator (4 # 10) then BUILDING
  else if Qlt_bool energyAccumulator (2 # 10)
          && Qlt_bool onsetDensity (2 # 10) then AMBIENT
  else if Qgt_bool energyAccumulator (6 # 10)
          && Qgt_bool onsetDensity (4 # 10) then INTENSE
  else if Qgt_bool energyAccumulator (3 # 10)
          || Qgt_bool energyTrend (5 # 100) then
    if isState currentState AMBIENT then BUILDING
    else if isState currentState BUILDING
            && Qgt_bool energyAccumulator (5 # 10) then INTENSE
    else currentState
  else if Qlt_bool energyTrend (- (5 # 100))
          && isState currentState INTENSE then BUILDING
  else currentState.

(** [onset > 0.5 ? 1 : 0] *)
Definition onsetFlag (onset : Q) : Q :=
  if Qgt_bool onset (1 # 2) then 1 else 0.

(** [bass] is accepted and not used. *)
Definition analyzeAndTransition (m : Machine) (rms onset bass : Q) : Machine :=
  let energyHistory :=
    pushBounded ENERGY_HISTORY_SIZE (energyHistory m) rms in
  let onsetHistory :=
    pushBounded ONSET_HISTORY_SIZE (onsetHistory m) (onsetFlag onset) in
  let avgEnergy :=
    total energyHistory / inject_Z (Z.of_nat (length energyHistory)) in
  let recentEnergy := total (sliceLast 10 energyHistory) / 10 in
  let energyTrend := recentEnergy - avgEnergy in
  let onsetDensity :=
    total onsetHistory / inject_Z (Z.of_nat (length onsetHistory)) in
  let suddenDrop :=
    Qgt_bool (lastEnergy m) (1 # 2) && Qlt_bool rms (15 # 100) in
  let energyAccumulator :=
    lerp (energyAccumulator m) (rms + onsetDensity * (1 # 2)) (5 # 100) in
  let newState :=
    transition (currentState m) suddenDrop energyAccumulator onsetDensity
               energyTrend in
  let changed := negb (isState newState (currentState m)) in
  {| currentState := newState;
     targetState := if changed then newState else targetState m;
     energyAccumulator := energyAccumulator;
     energyHistory := energyHistory;
     onsetHistory := onsetHistory;
     lastEnergy := rms;
     particles :=
       if changed
       then Nat.max (particles m) (getParticleCountForState newState)
       else particles m |}.

(** The machine after a run of calls, each with its [(rms, onset, bass)]. *)
Definition run (m : Machine) (inputs : list (Q * Q * Q)) : Machine :=
  foldl (fun m i => analyzeAndTransition m i.1.1 i.1.2 i.2) m inputs.

End StateMachine.

Module ReactionDiffusion.

(** [idx(x, y)] on a grid of [gridWidth] by [gridHeight] cells; [%] on
    integers is the truncated remainder. *)
Definition idx (gridWidth gridHeight x y : Z) : Z :=
  let x := Z.rem (x + gridWidth) gridWidth in
  let y := Z.rem (y + gridHeight) gridHeight in
  (y * gridWidth + x)%Z.

End ReactionDiffusion.

(** [s.padStart(targetLength, "0")] *)
Definition padStartZero (targetLength : nat) (s : string) : string :=
  String.concat "" (replicate (targetLength - String.length s) "0"%string)
  +:+ s.

(** formatTime of the sketches; an integer prints as its decimal digits. *)
Definition formatTime (seconds : Q) : string :=
  let m := Math.floor (seconds / 60) in
  let s := padStartZero 2 (pretty (Math.floor (jsRem seconds 60))) in
  pretty m +:+ ":" +:+ s.

(** The two decimal digits of a number below 100. *)
Definition twoDigits (n : Z) : string :=
  String (pretty_N_char (Z.to_N (n / 10)))
    (String (pretty_N_char (Z.to_N (n mod 10))) EmptyString).

Module ChromaWheel.

(** The object [{ val, idx }]. *)
Record Pitch : Type := mkPitch { val : Q; idx : nat }.

(** [indexed.sort((a, b) => b.val - a.val)].  The built-in sort is
    stable, so the result is the arrangement by descending [val] in which
    entries of equal [val] keep their order; putting each entry, last to
    first, in front of the first entry that is not greater builds it. *)
Fixpoint insertPitch (p : Pitch) (sorted : list Pitch) : list Pitch :=
  match sorted with
  | [] => [p]
  | q :: rest =>
      if Qlt_bool (val p) (val q)
      then q :: insertPitch p rest
      else p :: q :: rest
  end.

Definition sortDescending (l : list Pitch) : list Pitch :=
  foldr insertPitch [] l.

Definition getTopPitches (chroma : list Q) (n : nat) : list Pitch :=
  let indexed := imap (fun idx val => {| val := val; idx := idx |}) chroma in
  take n (sortDescending indexed).

(** No entry is followed by a greater one. *)
Definition descending (l : list Pitch) : Prop :=
  forall (i j : nat) (p q : Pitch),
    (i <= j)%nat -> l !! i = Some p -> l !! j = Some q -> val q <= val p.

End ChromaWheel.


(** ** Sample data *)

(** A frame at time [t] whose features all have the value [v], with 7
    bands and 12 pitch classes. *)
Definition sample (t v : Q) : Frame :=
  {| time := t; rms := v; centroid := v; centroid_hz := Some v;
     contrast := v; onset := v; harmonic := v; percussive := v;
     bands := repeat v 7; chroma := repeat v 12 |}.

(** A rounding to try the statements on: to the nearest multiple of
    1/8, halves upwards. *)
Definition toEighths (x : Q) : Q := inject_Z (Qfloor (x * 8 + (1 # 2))) / 8.

(** * Proofs *)

(** ** Comparisons *)

Lemma Qle_bool_false (x y : Q) : Qle_bool x y = false -> y < x.
Proof.
  intros H. apply Qnot_le_lt. intros Hle.
  apply Qle_bool_iff in Hle. congruence.
Qed.

Lemma Qgt_bool_true (x y : Q) : Qgt_bool x y = true <-> y < x.
Proof.
  unfold Qgt_bool. split.
  - intros H. apply Qle_bool_false. now apply negb_true_iff.
  - intros H. apply negb_true_iff. destruct (Qle_bool x y) eqn:E; [|reflexivity].
    apply Qle_bool_iff in E. lra.
Qed.

Lemma Qgt_bool_false (x y : Q) : Qgt_bool x y = false <-> x <= y.
Proof.
  unfold Qgt_bool. rewrite negb_false_iff. apply Qle_bool_iff.
Qed.

Lemma Qeq_bool_false (x y : Q) : Qeq_bool x y = false -> ~ x == y.
Proof. intros H. now apply Qeq_bool_neq. Qed.

(** ** Sorted frame sequences *)

Section Sorted.

Lemma ascending_tail (f : Frame) (l : list Frame) :
  ascending (f :: l) = true -> ascending l = true.
Proof.
  destruct l as [|g l]; [reflexivity|].
  simpl. intros H. apply andb_true_iff in H. tauto.
Qed.

Lemma ascending_head (f g : Frame) (l : list Frame) (j : nat) :
  ascending (f :: l) = true -> l !! j = Some g -> time f <= time g.
Proof.
  revert f g j. induction l as [|h l IH]; intros f g j Hs Hj.
  - destruct j; discriminate.
  - simpl in Hs. apply andb_true_iff in Hs. destruct Hs as [Hfh Hs].
    apply Qle_bool_iff in Hfh.
    destruct j as [|j]; simpl in Hj.
    + injection Hj as <-. exact Hfh.
    + apply Qle_trans with (time h); [exact Hfh|].
      apply (IH h g j); assumption.
Qed.

Lemma ascending_le (l : list Frame) (i j : nat) (f g : Frame) :
  ascending l = true -> (i <= j)%nat ->
  l !! i = Some f -> l !! j = Some g -> time f <= time g.
Proof.
  revert i j. induction l as [|h l IH]; intros i j Hs Hij Hi Hj.
  - destruct i; discriminate.
  - destruct i as [|i], j as [|j]; simpl in Hi, Hj.
    + injection Hi as <-. injection Hj as <-. apply Qle_refl.
    + injection Hi as <-. eapply ascending_head; eassumption.
    + lia.
    + apply (IH i j); [eapply ascending_tail; eassumption|lia|assumption..].
Qed.

Lemma strictlyAscending_ascending (l : list Frame) :
  strictlyAscending l = true -> ascending l = true.
Proof.
  induction l as [|f [|g l] IH]; try reflexivity.
  simpl. intros H. apply andb_true_iff in H. destruct H as [H1 H2].
  apply andb_true_iff. split.
  - apply Qle_bool_iff. apply Qgt_bool_true in H1. lra.
  - apply IH. exact H2.
Qed.

Lemma strictlyAscending_next (l : list Frame) (i : nat) (f g : Frame) :
  strictlyAscending l = true ->
  l !! i = Some f -> l !! S i = Some g -> time f < time g.
Proof.
  revert i. induction l as [|h [|h' l] IH]; intros i Hs Hi Hj.
  - discriminate.
  - destruct i; discriminate.
  - simpl in Hs. apply andb_true_iff in Hs. destruct Hs as [H1 H2].
    destruct i as [|i]; simpl in Hi, Hj.
    + injection Hi as <-. injection Hj as <-. now apply Qgt_bool_true.
    + apply (IH i); assumption.
Qed.

End Sorted.

(** ** The binary search *)

Section Search.

Variable l : list Frame.
Variable t : Q.

Lemma searchLoop_unfold (fuel low high : nat) :
  searchLoop (S fuel) l t low high =
  if (low <? high)%nat then
    let mid := ((low + high + 1) / 2)%nat in
    let! f := deref (l !! mid) in
    if Qle_bool (time f) t
    then searchLoop fuel l t mid high
    else searchLoop fuel l t low (mid - 1)%nat
  else Done low.
Proof. reflexivity. Qed.

(** The loop ends within [high - low] rounds, never reads outside the
    array and returns an index of the window; on a sorted array the
    index is the latest frame at or before [t], if the window has one. *)
Lemma searchLoop_spec (fuel low high : nat) :
  (low <= high)%nat -> (high < length l)%nat -> (high - low <= fuel)%nat ->
  exists idx : nat,
    searchLoop fuel l t low high = Done idx /\
    (low <= idx <= high)%nat /\
    (idx = low \/ exists f, l !! idx = Some f /\ time f <= t) /\
    (ascending l = true ->
     forall (j : nat) (g : Frame),
       (idx < j <= high)%nat -> l !! j = Some g -> t < time g).
Proof.
  revert low high. induction fuel as [|fuel IH]; intros low high Hlh Hlen Hfuel.
  - assert (low = high) as -> by lia.
    exists high. simpl. rewrite Nat.ltb_irrefl.
    repeat split; lia.
  - rewrite searchLoop_unfold. destruct (low <? high)%nat eqn:Hlt.
    2:{ apply Nat.ltb_ge in Hlt. assert (low = high) as -> by lia.
        exists high. repeat split; lia. }
    apply Nat.ltb_lt in Hlt.
    cbv zeta. set (mid := ((low + high + 1) / 2)%nat).
    assert (Hmid : (low < mid <= high)%nat).
    { unfold mid. split.
      - apply Nat.div_le_lower_bound; lia.
      - apply Nat.Div0.div_le_upper_bound; lia. }
    destruct (lookup_lt_is_Some_2 l mid) as [f Hf]; [lia|].
    rewrite Hf. cbn [deref bind].
    destruct (Qle_bool (time f) t) eqn:Hcmp.
    + apply Qle_bool_iff in Hcmp.
      destruct (IH mid high) as (idx & Hrun & Hrange & Hle & Hgt); try lia.
      exists idx. split; [exact Hrun|]. split; [lia|]. split.
      * destruct Hle as [-> | Hle]; [|now right]. right. eauto.
      * exact Hgt.
    + apply Qle_bool_false in Hcmp.
      destruct (IH low (mid - 1)%nat) as (idx & Hrun & Hrange & Hle & Hgt);
        try lia.
      exists idx. split; [exact Hrun|]. split; [lia|]. split; [exact Hle|].
      intros Hs j g Hj Hg.
      destruct (Nat.le_gt_cases j (mid - 1)) as [Hsmall | Hbig].
      * apply (Hgt Hs j g); [lia | exact Hg].
      * apply Qlt_le_trans with (time f); [exact Hcmp|].
        apply (ascending_le l mid j f g); [exact Hs | lia | exact Hf | exact Hg].
Qed.

(** getFrameIndex on a non-empty array. *)
Lemma getFrameIndex_spec :
  l <> [] ->
  exists idx : nat,
    getFrameIndex (Some l) t = Done idx /\
    (idx < length l)%nat /\
    (idx = 0%nat \/ exists f, l !! idx = Some f /\ time f <= t) /\
    (ascending l = true ->
     forall (j : nat) (g : Frame),
       (idx < j)%nat -> l !! j = Some g -> t < time g).
Proof.
  intros Hne. destruct l as [|f0 l'] eqn:El; [congruence|].
  rewrite <- El in *.
  assert (Hlen : (0 < length l)%nat) by (rewrite El; simpl; lia).
  destruct (searchLoop_spec (length l) 0 (length l - 1))
    as (idx & Hrun & Hrange & Hle & Hgt); try lia.
  exists idx. split.
  - rewrite El at 1. simpl. rewrite El in Hrun. exact Hrun.
  - split; [lia|]. split; [exact Hle|].
    intros Hs j g Hj Hg. apply (Hgt Hs j g); [|exact Hg].
    apply lookup_lt_Some in Hg. lia.
Qed.

End Search.

(** ** Linear interpolation *)

Section Lerp.

Lemma lerp_between (a b k : Q) :
  0 <= k -> k <= 1 -> between a b (lerp a b k).
Proof.
  intros H0 H1. unfold between, lerp.
  destruct (Qlt_le_dec a b) as [Hab | Hba].
  - left. split; nra.
  - right. split; nra.
Qed.

Lemma fraction_bounds (tf tg t : Q) :
  tf < t -> t < tg -> 0 < (t - tf) / (tg - tf) /\ (t - tf) / (tg - tf) < 1.
Proof.
  intros H1 H2. split.
  - apply Qlt_shift_div_l; lra.
  - apply Qlt_shift_div_r; lra.
Qed.


Lemma lerpVec_Some (cur next : list Q) (k : Q) :
  (length cur <= length next)%nat ->
  exists xs, lerpVec cur next k = Some xs /\ lerpOfVec cur next k xs.
Proof.
  intros Hlen. unfold lerpVec.
  assert (Hsome : is_Some (mapM id (imap (lerpAt next k) cur))).
  { apply mapM_is_Some, Forall_lookup. intros i o Ho.
    rewrite list_lookup_imap in Ho.
    destruct (cur !! i) as [a|] eqn:Ha; [|discriminate].
    injection Ho as <-. unfold lerpAt.
    destruct (lookup_lt_is_Some_2 next i) as [b Hb].
    { apply lookup_lt_Some in Ha. lia. }
    rewrite Hb. eexists. reflexivity. }
  destruct Hsome as [xs Hxs]. exists xs. split; [exact Hxs|].
  apply mapM_Some_1 in Hxs. split.
  - apply Forall2_length in Hxs. rewrite length_imap in Hxs. congruence.
  - intros i a b Ha Hb.
    destruct (Forall2_lookup_l _ _ _ i (lerpAt next k i a) Hxs)
      as (x & Hx & Hid).
    { rewrite list_lookup_imap, Ha. reflexivity. }
    rewrite Hx. unfold lerpAt in Hid. rewrite Hb in Hid. exact (eq_sym Hid).
Qed.

Lemma lerpOfVec_between (as_ bs xs : list Q) (k : Q) :
  0 <= k -> k <= 1 -> lerpOfVec as_ bs k xs -> betweenVec as_ bs xs.
Proof.
  intros H0 H1 [Hlen Hxs]. split; [exact Hlen|].
  intros i a b x Ha Hb Hx. rewrite (Hxs i a b Ha Hb) in Hx.
  injection Hx as <-. now apply lerp_between.
Qed.

Lemma lerpOf_within (f g s : Frame) (k : Q) :
  0 <= k -> k <= 1 -> lerpOf f g k s -> withinFrames f g s.
Proof.
  intros H0 H1 (Hr & Hc & Hz & Hco & Ho & Hh & Hp & Hb & Hch).
  unfold withinFrames.
  rewrite Hr, Hc, Hco, Ho, Hh, Hp.
  repeat (split; [now apply lerp_between|]).
  split; [now apply lerpOfVec_between with k|].
  split; [now apply lerpOfVec_between with k|].
  intros a b Ha Hb'. rewrite Hz, Ha, Hb'. simpl.
  eexists. split; [reflexivity|]. now apply lerp_between.
Qed.

(** With distinct times and vectors of equal lengths the interpolating
    branch builds a finite snapshot, field by field. *)
Lemma interpolate_snap (f g : Frame) (t : Q) :
  ~ time g - time f == 0 -> sameShape f g ->
  exists s : Frame,
    interpolate f g t = Snap s /\ time s = t /\
    lerpOf f g ((t - time f) / (time g - time f)) s.
Proof.
  intros Hspan [Hb Hc]. unfold interpolate.
  destruct (Qeq_bool (time g - time f) 0) eqn:E.
  { apply Qeq_bool_iff in E. contradiction. }
  set (k := (t - time f) / (time g - time f)).
  destruct (lerpVec_Some (bands f) (bands g) k) as (bs & -> & Hbs); [lia|].
  destruct (lerpVec_Some (chroma f) (chroma g) k) as (cs & -> & Hcs); [lia|].
  eexists. split; [reflexivity|]. split; [reflexivity|].
  unfold lerpOf. cbn. repeat (split; [reflexivity|]). split; assumption.
Qed.

End Lerp.

(** ** The resolver, case by case *)

Section Resolver.

Variable l : list Frame.
Variable t : Q.
Hypothesis nonempty : l <> [].

(** Past the guard, getFrameAtTime reads [frames[idx]] inside the array
    and takes one of its three exits. *)
Lemma getFrameAtTime_cases :
  exists (idx : nat) (f : Frame),
    getFrameIndex (Some l) t = Done idx /\
    l !! idx = Some f /\
    (idx = 0%nat \/ time f <= t) /\
    (ascending l = true ->
     forall (j : nat) (g : Frame),
       (idx < j)%nat -> l !! j = Some g -> t < time g) /\
    getFrameAtTime (Some l) t =
      if (length l - 1 <=? idx)%nat then Done (Snap f)
      else if Qeq_bool (time f) t then Done (Snap f)
      else match l !! (idx + 1)%nat with
           | Some g => Done (interpolate f g t)
           | None => TypeError
           end.
Proof.
  destruct (getFrameIndex_spec l t nonempty) as (idx & Hidx & Hlt & Hle & Hgt).
  destruct (lookup_lt_is_Some_2 l idx Hlt) as [f Hf].
  exists idx, f. split; [exact Hidx|]. split; [exact Hf|]. split.
  { destruct Hle as [-> | (f' & Hf' & Hle)]; [now left|].
    right. congruence. }
  split; [exact Hgt|].
  unfold getFrameAtTime. destruct l as [|f0 l'] eqn:El; [congruence|].
  rewrite <- El in *. rewrite Hidx. cbn [bind]. rewrite Hf. cbn [deref bind].
  destruct (length l - 1 <=? idx)%nat; [reflexivity|].
  destruct (Qeq_bool (time f) t); [reflexivity|].
  destruct (l !! (idx + 1)%nat); reflexivity.
Qed.

(** Inside the array the successor of a non-last index exists. *)
Lemma successor_exists (idx : nat) :
  (length l - 1 <=? idx)%nat = false -> is_Some (l !! (idx + 1)%nat).
Proof.
  intros H. apply Nat.leb_gt in H. apply lookup_lt_is_Some_2. lia.
Qed.

End Resolver.

(** ** Which frame the search locates *)

Section Located.

Variable l : list Frame.
Variable t : Q.
Hypothesis sorted : ascending l = true.

(** The search returns the index of the latest frame at or before [t]. *)
Lemma located_index (i : nat) (f : Frame) :
  l !! i = Some f -> time f <= t ->
  (forall g, l !! S i = Some g -> t < time g) ->
  getFrameIndex (Some l) t = Done i.
Proof.
  intros Hi Hle Hnext.
  assert (Hne : l <> []) by (intros ->; discriminate).
  destruct (getFrameAtTime_cases l t Hne) as (idx & f' & Hidx & Hf' & Hlo & Hhi & _).
  rewrite Hidx. f_equal.
  destruct (Nat.lt_trichotomy idx i) as [Hlt | [Heq | Hgt]]; [|exact Heq|].
  - specialize (Hhi sorted i f Hlt Hi). lra.
  - destruct Hlo as [-> | Hlo]; [lia|].
    destruct (lookup_lt_is_Some_2 l (S i)) as [g Hg].
    { apply lookup_lt_Some in Hf'. lia. }
    specialize (Hnext g Hg).
    assert (time g <= time f')
      by (apply (ascending_le l (S i) idx); [exact sorted|lia|assumption..]).
    lra.
Qed.


End Located.

(** What getFrameAtTime returns once the located index is known. *)
Lemma getFrameAtTime_at (l : list Frame) (t : Q) (idx : nat) (f : Frame) :
  getFrameIndex (Some l) t = Done idx -> l !! idx = Some f ->
  getFrameAtTime (Some l) t =
    if (length l - 1 <=? idx)%nat then Done (Snap f)
    else if Qeq_bool (time f) t then Done (Snap f)
    else match l !! (idx + 1)%nat with
         | Some g => Done (interpolate f g t)
         | None => TypeError
         end.
Proof.
  intros Hidx Hf.
  assert (Hne : l <> []) by (intros ->; discriminate).
  destruct (getFrameAtTime_cases l t Hne) as (idx' & f' & Hidx' & Hf' & _ & _ & ->).
  assert (idx' = idx) as -> by congruence.
  assert (f' = f) as -> by congruence.
  reflexivity.
Qed.

Lemma interpolate_object (f g : Frame) (t : Q) :
  (exists s, interpolate f g t = Snap s) \/ interpolate f g t = NonFinite t.
Proof.
  unfold interpolate. destruct (Qeq_bool _ _); [now right|].
  destruct (lerpVec (bands f) _ _); [|now right].
  destruct (lerpVec (chroma f) _ _); [|now right].
  left. eexists. reflexivity.
Qed.

(** The interpolating branch writes the query time into [time]. *)
Lemma interpolate_time (f g : Frame) (t : Q) :
  snapshotTime (interpolate f g t) = Some t.
Proof.
  unfold interpolate.
  destruct (Qeq_bool (time g - time f) 0); [reflexivity|].
  destruct (lerpVec (bands f) (bands g) _); [|reflexivity].
  destruct (lerpVec (chroma f) (chroma g) _); reflexivity.
Qed.

(** On a non-empty array getFrameAtTime ends with an object: a finite
    snapshot or one with non-finite features. *)
Lemma getFrameAtTime_object (l : list Frame) (t : Q) :
  l <> [] ->
  exists s, getFrameAtTime (Some l) t = Done s /\
            ((exists f, s = Snap f) \/ s = NonFinite t).
Proof.
  intros Hne.
  destruct (getFrameAtTime_cases l t Hne) as (idx & f & _ & _ & _ & _ & ->).
  destruct (length l - 1 <=? idx)%nat eqn:Hlast; [eauto|].
  destruct (Qeq_bool (time f) t); [eauto|].
  destruct (successor_exists l idx Hlast) as [g ->].
  exists (interpolate f g t). split; [reflexivity|]. apply interpolate_object.
Qed.

(** ** Interpolation with rounding *)

Lemma between_compat (a b x y : Q) : x == y -> between a b x -> between a b y.
Proof. unfold between. intros E [[H1 H2] | [H1 H2]]; [left|right]; lra. Qed.

Lemma between_end_compat (a b c x : Q) :
  b == c -> between a b x -> between a c x.
Proof. unfold between. intros E [[H1 H2] | [H1 H2]]; [left|right]; lra. Qed.

Section Rounding.

Variable rnd : Q -> Q.
Hypothesis rnd_rounding : rounding rnd.

Lemma rnd_mono (x y : Q) : x <= y -> rnd x <= rnd y.
Proof. apply rnd_rounding. Qed.

Lemma rnd_compat (x y : Q) : x == y -> rnd x == rnd y.
Proof.
  intros E. apply Qle_antisym; apply rnd_mono; rewrite E; apply Qle_refl.
Qed.

Lemma rnd_idem (x : Q) : rnd (rnd x) == rnd x.
Proof. apply rnd_rounding. Qed.

Lemma rnd_zero : rnd 0 == 0.
Proof. apply rnd_rounding. Qed.

Lemma rnd_one : rnd 1 == 1.
Proof. apply rnd_rounding. Qed.

Lemma rnd_nonneg (x : Q) : 0 <= x -> 0 <= rnd x.
Proof. intros H. rewrite <- rnd_zero. now apply rnd_mono. Qed.

Lemma rnd_nonpos (x : Q) : x <= 0 -> rnd x <= 0.
Proof. intros H. rewrite <- rnd_zero. now apply rnd_mono. Qed.

Lemma rnd_representable (x : Q) : representable rnd (rnd x).
Proof. apply rnd_idem. Qed.


(** At fraction 1 the product is not rounded again. *)
Lemma rounded_lerp_one (a b : Q) :
  Rounded.lerp rnd a b 1 == rnd (a + rnd (b - a)).
Proof.
  unfold Rounded.lerp. apply rnd_compat.
  assert (E : rnd (rnd (b - a) * 1) == rnd (b - a)).
  { rewrite <- (rnd_idem (b - a)) at 2. apply rnd_compat. ring. }
  rewrite E. reflexivity.
Qed.

(** For a fraction in [0, 1] the rounded [lerp] stays between its
    starting value and what it gives at fraction 1. *)
Lemma rounded_lerp_between (a b k : Q) :
  representable rnd a -> 0 <= k -> k <= 1 ->
  between a (Rounded.lerp rnd a b 1) (Rounded.lerp rnd a b k).
Proof.
  intros Ha H0 H1. unfold between. rewrite rounded_lerp_one.
  unfold Rounded.lerp. set (e := rnd (b - a)).
  assert (He : rnd e == e) by apply rnd_idem.
  unfold representable in Ha.
  destruct (Qlt_le_dec e 0) as [Hneg | Hpos].
  - right.
    assert (Hp1 : e <= rnd (e * k)).
    { rewrite <- He at 1. apply rnd_mono. nra. }
    assert (Hp2 : rnd (e * k) <= 0) by (apply rnd_nonpos; nra).
    split.
    + apply rnd_mono. lra.
    + rewrite <- Ha at 2. apply rnd_mono. lra.
  - left.
    assert (Hp1 : 0 <= rnd (e * k)) by (apply rnd_nonneg; nra).
    assert (Hp2 : rnd (e * k) <= e).
    { rewrite <- He at 2. apply rnd_mono. nra. }
    split.
    + rewrite <- Ha at 1. apply rnd_mono. lra.
    + apply rnd_mono. lra.
Qed.

(** Without rounding the rounded [lerp] is [lerp]. *)
Lemma rounded_lerp_exact (a b k : Q) :
  exact rnd -> Rounded.lerp rnd a b k == lerp a b k.
Proof.
  intros Hex. unfold Rounded.lerp, lerp.
  rewrite (Hex (a + rnd (rnd (b - a) * k))).
  rewrite (Hex (rnd (b - a) * k)), (Hex (b - a)). reflexivity.
Qed.

(** The fraction computed between two samples lies in [0, 1]. *)
Lemma rounded_fraction_bounds (tf tg t : Q) :
  tf < t -> t < tg -> ~ rnd (tg - tf) == 0 ->
  0 <= rnd (rnd (t - tf) / rnd (tg - tf)) /\
  rnd (rnd (t - tf) / rnd (tg - tf)) <= 1.
Proof.
  intros H1 H2 Hspan.
  assert (Hd1 : 0 <= rnd (t - tf)) by (apply rnd_nonneg; lra).
  assert (Hd12 : rnd (t - tf) <= rnd (tg - tf)) by (apply rnd_mono; lra).
  assert (Hd2 : 0 < rnd (tg - tf)).
  { destruct (Qlt_le_dec 0 (rnd (tg - tf))) as [H | H]; [exact H|].
    exfalso. apply Hspan. lra. }
  split.
  - apply rnd_nonneg. apply Qle_shift_div_l; [exact Hd2|lra].
  - rewrite <- rnd_one. apply rnd_mono.
    apply Qle_shift_div_r; [exact Hd2|lra].
Qed.

Lemma rounded_lerpVec_Some (cur next : list Q) (k : Q) :
  (length cur <= length next)%nat ->
  exists xs, Rounded.lerpVec rnd cur next k = Some xs /\
             roundedLerpOfVec rnd cur next k xs.
Proof.
  intros Hlen. unfold Rounded.lerpVec.
  assert (Hsome : is_Some (mapM id (imap (Rounded.lerpAt rnd next k) cur))).
  { apply mapM_is_Some, Forall_lookup. intros i o Ho.
    rewrite list_lookup_imap in Ho.
    destruct (cur !! i) as [a|] eqn:Ha; [|discriminate].
    injection Ho as <-. unfold Rounded.lerpAt.
    destruct (lookup_lt_is_Some_2 next i) as [b Hb].
    { apply lookup_lt_Some in Ha. lia. }
    rewrite Hb. eexists. reflexivity. }
  destruct Hsome as [xs Hxs]. exists xs. split; [exact Hxs|].
  apply mapM_Some_1 in Hxs. split.
  - apply Forall2_length in Hxs. rewrite length_imap in Hxs. congruence.
  - intros i a b Ha Hb.
    destruct (Forall2_lookup_l _ _ _ i (Rounded.lerpAt rnd next k i a) Hxs)
      as (x & Hx & Hid).
    { rewrite list_lookup_imap, Ha. reflexivity. }
    rewrite Hx. unfold Rounded.lerpAt in Hid. rewrite Hb in Hid.
    exact (eq_sym Hid).
Qed.

(** On vectors of equal lengths the object literal is a finite snapshot,
    field by field. *)
Lemma rounded_blend_snap (f g : Frame) (t k : Q) :
  sameShape f g ->
  exists s : Frame,
    Rounded.blend rnd f g t k = Snap s /\ time s = t /\
    roundedLerpOf rnd f g k s.
Proof.
  intros [Hb Hc]. unfold Rounded.blend.
  destruct (rounded_lerpVec_Some (bands f) (bands g) k) as (bs & -> & Hbs);
    [lia|].
  destruct (rounded_lerpVec_Some (chroma f) (chroma g) k) as (cs & -> & Hcs);
    [lia|].
  eexists. split; [reflexivity|]. split; [reflexivity|].
  unfold roundedLerpOf. cbn. repeat (split; [reflexivity|]). split; assumption.
Qed.

Lemma rounded_vec_between (as_ bs xs es : list Q) (k : Q) :
  length as_ = length bs -> Forall (representable rnd) as_ ->
  0 <= k -> k <= 1 ->
  roundedLerpOfVec rnd as_ bs k xs -> roundedLerpOfVec rnd as_ bs 1 es ->
  betweenVec as_ es xs.
Proof.
  intros Hlen Hrep H0 H1 [Hlx Hxs] [Hle Hes]. split; [exact Hlx|].
  intros i a e x Ha He Hx.
  destruct (lookup_lt_is_Some_2 bs i) as [b Hb].
  { apply lookup_lt_Some in Ha. lia. }
  rewrite (Hxs i a b Ha Hb) in Hx. rewrite (Hes i a b Ha Hb) in He.
  injection Hx as <-. injection He as <-.
  apply rounded_lerp_between; [|exact H0|exact H1].
  exact (proj1 (Forall_lookup _ _) Hrep i a Ha).
Qed.

(** Every feature of the snapshot lies between that of the earlier frame
    and what the object literal holds at fraction 1. *)
Lemma rounded_within (f g s e : Frame) (k : Q) :
  sameShape f g -> representableFrame rnd f -> 0 <= k -> k <= 1 ->
  roundedLerpOf rnd f g k s -> roundedLerpOf rnd f g 1 e ->
  withinFrames f e s.
Proof.
  intros [Hsb Hsc] (Rr & Rc & Rz & Rco & Ro & Rh & Rp & Rb & Rch) H0 H1
    (Hr & Hc & Hz & Hco & Ho & Hh & Hp & Hb & Hch)
    (Er & Ec & Ez & Eco & Eo & Eh & Ep & Eb & Ech).
  unfold withinFrames.
  rewrite Hr, Hc, Hco, Ho, Hh, Hp, Er, Ec, Eco, Eo, Eh, Ep.
  repeat (split; [now apply rounded_lerp_between|]).
  split; [now apply rounded_vec_between with (bands g) k|].
  split; [now apply rounded_vec_between with (chroma g) k|].
  intros a b Ha Hb'. rewrite Hz. rewrite Ez in Hb'. rewrite Ha in Hb' |- *.
  destruct (centroid_hz g) as [c|]; [|discriminate].
  cbn in Hb' |- *. injection Hb' as <-.
  eexists. split; [reflexivity|].
  apply rounded_lerp_between; [now apply Rz|exact H0|exact H1].
Qed.

(** Without rounding every feature lies between those of the two
    frames. *)
Lemma rounded_within_exact (f g s : Frame) (k : Q) :
  exact rnd -> 0 <= k -> k <= 1 ->
  roundedLerpOf rnd f g k s -> withinFrames f g s.
Proof.
  intros Hex H0 H1 (Hr & Hc & Hz & Hco & Ho & Hh & Hp & Hb & Hch).
  assert (Hone : forall a b : Q, between a b (Rounded.lerp rnd a b k)).
  { intros a b. apply between_compat with (lerp a b k).
    - symmetry. now apply rounded_lerp_exact.
    - now apply lerp_between. }
  assert (Hvec : forall as_ bs xs : list Q,
            roundedLerpOfVec rnd as_ bs k xs -> betweenVec as_ bs xs).
  { intros as_ bs xs [Hlen Hxs]. split; [exact Hlen|].
    intros i a b x Ha Hb' Hx. rewrite (Hxs i a b Ha Hb') in Hx.
    injection Hx as <-. apply Hone. }
  unfold withinFrames. rewrite Hr, Hc, Hco, Ho, Hh, Hp.
  repeat (split; [apply Hone|]).
  split; [now apply Hvec|]. split; [now apply Hvec|].
  intros a b Ha Hb'. rewrite Hz, Ha, Hb'. cbn.
  eexists. split; [reflexivity|]. apply Hone.
Qed.

End Rounding.

(** What the rounded getFrameAtTime returns once the located index is
    known. *)
Lemma rounded_getFrameAtTime_at (rnd : Q -> Q) (l : list Frame) (t : Q)
    (idx : nat) (f : Frame) :
  getFrameIndex (Some l) t = Done idx -> l !! idx = Some f ->
  Rounded.getFrameAtTime rnd (Some l) t =
    if (length l - 1 <=? idx)%nat then Done (Snap f)
    else if Qeq_bool (time f) t then Done (Snap f)
    else match l !! (idx + 1)%nat with
         | Some g => Done (Rounded.interpolate rnd f g t)
         | None => TypeError
         end.
Proof.
  intros Hidx Hf. unfold Rounded.getFrameAtTime.
  destruct l as [|f0 l'] eqn:El; [discriminate|].
  rewrite <- El in *. rewrite Hidx. cbn [bind]. rewrite Hf. cbn [deref bind].
  destruct (length l - 1 <=? idx)%nat; [reflexivity|].
  destruct (Qeq_bool (time f) t); [reflexivity|].
  destruct (l !! (idx + 1)%nat); reflexivity.
Qed.

Lemma rounding_identity : rounding (fun x : Q => x).
Proof.
  repeat split; try reflexivity. intros x y H. exact H.
Qed.

Lemma numberFrame_representable (rnd : Q -> Q) (f : Frame) :
  numberFrame rnd f -> representableFrame rnd f.
Proof.
  intros (_ & Hr & Hc & Hz & Hco & Ho & Hh & Hp & Hb & Hch).
  unfold representableFrame.
  repeat (split; [match goal with H : number _ _ |- _ => exact (proj1 H) end
                 || (intros a Ha; exact (proj1 (Hz a Ha)))|]).
  split; eapply Forall_impl; try eassumption; intros x Hx; exact (proj1 Hx).
Qed.

Lemma toEighths_of_eighths (z : Z) :
  toEighths (inject_Z z / 8) == inject_Z z / 8.
Proof.
  unfold toEighths.
  assert (E : inject_Z z / 8 * 8 + (1 # 2) == inject_Z z + (1 # 2)) by field.
  rewrite E.
  assert (F : Qfloor (inject_Z z + (1 # 2)) = z).
  { pose proof (Qfloor_le (inject_Z z + (1 # 2))) as H1.
    pose proof (Qlt_floor (inject_Z z + (1 # 2))) as H2.
    set (w := Qfloor (inject_Z z + (1 # 2))) in *.
    rewrite inject_Z_plus in H2. change (inject_Z 1) with 1 in H2.
    assert (Ha : (w < z + 1)%Z).
    { rewrite Zlt_Qlt, inject_Z_plus. change (inject_Z 1) with 1. lra. }
    assert (Hb : (z < w + 1)%Z).
    { rewrite Zlt_Qlt, inject_Z_plus. change (inject_Z 1) with 1. lra. }
    lia. }
  rewrite F. reflexivity.
Qed.

Lemma rounding_toEighths : rounding toEighths.
Proof.
  split; [|split; [|split]].
  - intros x y H. unfold toEighths.
    assert (Hz : (Qfloor (x * 8 + (1 # 2)) <= Qfloor (y * 8 + (1 # 2)))%Z)
      by (apply Qfloor_resp_le; lra).
    rewrite Zle_Qle in Hz.
    unfold Qdiv. change (/ 8) with (1 # 8). lra.
  - intros x. unfold toEighths at 2 3. apply toEighths_of_eighths.
  - reflexivity.
  - reflexivity.
Qed.

(** Decides an equation between two given rationals, and that a given
    rational is an input. *)
Ltac given_rationals := apply Qeq_bool_iff; vm_compute; reflexivity.

Ltac given_number :=
  split;
  [given_rationals | unfold inRange; apply Qle_bool_iff; vm_compute; reflexivity].

Ltac given_numbers :=
  repeat (constructor; [given_number|]); constructor.

Ltac given_frame :=
  repeat match goal with
         | |- numberFrame _ _ => unfold numberFrame
         | |- _ /\ _ => split
         | |- number _ _ => given_number
         | |- forall a, _ = Some a -> _ => intros ? [= <-]
         | |- Forall ?P ?l =>
             let l' := eval cbv in l in change (Forall P l'); given_numbers
         end.

(** * The claims *)

(** ** Frame resolver *)

(** C1 (amended).  On a sequence sorted ascending by time, when the query
    time [t] equals [frames[i].time] and no later frame has that same time
    (always so when the times are strictly ascending), getFrameAtTime
    returns [frames[i]] verbatim: every feature value, scalar or vector,
    is that of [frames[i]]. *)
Theorem exact_time_returns_latest_frame
    (l : list Frame) (i : nat) (f : Frame) (t : Q) :
  ascending l = true ->
  l !! i = Some f ->
  t == time f ->
  (forall g, l !! S i = Some g -> t < time g) ->
  getFrameAtTime (Some l) t = Done (Snap f).
Proof.
  intros Hs Hi Ht Hnext.
  rewrite (getFrameAtTime_at l t i f); [| |exact Hi].
  - destruct (length l - 1 <=? i)%nat; [reflexivity|].
    destruct (Qeq_bool (time f) t) eqn:E; [reflexivity|].
    apply Qeq_bool_false in E. exfalso. apply E. symmetry. exact Ht.
  - apply located_index with f; [exact Hs|exact Hi| |exact Hnext].
    rewrite Ht. apply Qle_refl.
Qed.

Lemma exact_time_witness :
  let l := [sample 0 0; sample 1 1; sample 2 (1 # 2)] in
  ascending l = true /\
  getFrameAtTime (Some l) 1 = Done (Snap (sample 1 1)).
Proof.
  split; [reflexivity|].
  apply (exact_time_returns_latest_frame _ 1%nat).
  - reflexivity.
  - reflexivity.
  - reflexivity.
  - intros g Hg. injection Hg as <-. reflexivity.
Defined.

(** C1 as stated fails when two frames share a time: the sequence is
    sorted ascending, [t] equals [frames[0].time], yet the snapshot carries
    the values of [frames[1]]. *)
Lemma exact_time_duplicate_counterexample :
  let l := [sample 0 0; sample 0 1] in
  ascending l = true /\
  l !! 0%nat = Some (sample 0 0) /\
  0 == time (sample 0 0) /\
  getFrameAtTime (Some l) 0 = Done (Snap (sample 0 1)) /\
  ~ rms (sample 0 1) == rms (sample 0 0).
Proof.
  repeat split. discriminate.
Qed.

(** C2 (amended).  On a sequence sorted strictly ascending by time, for
    [t] strictly between [frames[i].time] and [frames[i+1].time] (frames of
    one dataset: vectors of equal lengths, numbers in range; the
    difference of the two times not rounded to zero, as that of two
    distinct binary64 numbers never is), getFrameAtTime returns a snapshot every scalar field of which, and
    every element of its bands and chroma vectors, lies in the closed
    interval between the value of [frames[i]] and the value the same
    [lerp] gives at fraction 1.  That value is the one of [frames[i+1]]
    when no operation rounds, so that the interval is then the one
    spanned by the two frames; with rounding it can miss the value of
    [frames[i+1]] by the rounding of [lerp]'s subtraction and addition. *)
Theorem between_samples_is_bounded
    (rnd : Q -> Q) (l : list Frame) (i : nat) (f g : Frame) (t : Q) :
  rounding rnd ->
  numberFrame rnd f -> numberFrame rnd g -> number rnd t ->
  strictlyAscending l = true ->
  l !! i = Some f ->
  l !! S i = Some g ->
  time f < t -> t < time g ->
  sameShape f g ->
  ~ rnd (time g - time f) == 0 ->
  exists s e : Frame,
    Rounded.getFrameAtTime rnd (Some l) t = Done (Snap s) /\
    Rounded.blend rnd f g t 1 = Snap e /\
    withinFrames f e s /\
    (exact rnd -> withinFrames f g s).
Proof.
  intros Hrnd Hrep _ _ Hs Hi Hj Hft Htg Hshape Hspan.
  apply numberFrame_representable in Hrep.
  apply strictlyAscending_ascending in Hs.
  rewrite (rounded_getFrameAtTime_at rnd l t i f); [| |exact Hi].
  2:{ apply located_index with f; [exact Hs|exact Hi|lra|].
      intros g' Hg'. congruence. }
  assert (Hlast : (length l - 1 <=? i)%nat = false).
  { apply Nat.leb_gt. apply lookup_lt_Some in Hj. lia. }
  rewrite Hlast.
  destruct (Qeq_bool (time f) t) eqn:E.
  { apply Qeq_bool_iff in E. lra. }
  replace (i + 1)%nat with (S i) by lia. rewrite Hj.
  unfold Rounded.interpolate. cbv zeta.
  destruct (Qeq_bool (rnd (time g - time f)) 0) eqn:Ez.
  { apply Qeq_bool_iff in Ez. contradiction. }
  set (k := rnd (rnd (t - time f) / rnd (time g - time f))).
  destruct (rounded_fraction_bounds rnd Hrnd (time f) (time g) t Hft Htg Hspan)
    as [Hk0 Hk1]. fold k in Hk0, Hk1.
  destruct (rounded_blend_snap rnd f g t k Hshape) as (s & -> & _ & Hlerp).
  destruct (rounded_blend_snap rnd f g t 1 Hshape) as (e & -> & _ & Hend).
  exists s, e. split; [reflexivity|]. split; [reflexivity|]. split.
  - exact (rounded_within rnd Hrnd f g s e k Hshape Hrep Hk0 Hk1 Hlerp Hend).
  - intros Hex. exact (rounded_within_exact rnd f g s k Hex Hk0 Hk1 Hlerp).
Qed.

Lemma between_samples_witness :
  let f := sample 0 (1 # 8) in
  let g := sample 1 (7 # 8) in
  strictlyAscending [f; g] = true /\
  (exists s e : Frame,
     Rounded.getFrameAtTime toEighths (Some [f; g]) (3 # 8) = Done (Snap s) /\
     Rounded.blend toEighths f g (3 # 8) 1 = Snap e /\
     withinFrames f e s) /\
  (exists s : Frame,
     getFrameAtTime (Some [f; g]) (3 # 8) = Done (Snap s) /\
     withinFrames f g s).
Proof.
  intros f g. split; [reflexivity|]. split.
  - destruct (between_samples_is_bounded toEighths [f; g] 0%nat f g (3 # 8))
      as (s & e & Hrun & Hend & Hin & _).
    + exact rounding_toEighths.
    + given_frame.
    + given_frame.
    + given_number.
    + reflexivity.
    + reflexivity.
    + reflexivity.
    + reflexivity.
    + reflexivity.
    + split; reflexivity.
    + intros H. apply Qeq_bool_iff in H. discriminate.
    + exists s, e. split; [exact Hrun|]. split; [exact Hend|exact Hin].
  - destruct (between_samples_is_bounded (fun x : Q => x) [f; g] 0%nat f g
                (3 # 8))
      as (s & e & Hrun & _ & _ & Hexact).
    + exact rounding_identity.
    + given_frame.
    + given_frame.
    + given_number.
    + reflexivity.
    + reflexivity.
    + reflexivity.
    + reflexivity.
    + reflexivity.
    + split; reflexivity.
    + discriminate.
    + exists s. split; [exact Hrun|]. apply Hexact. intros x. reflexivity.
Defined.

Section BetweenSamplesBinary64.

Import PrimFloat.

Local Open Scope float_scope.

(** C2 as stated fails in binary64.  With frames at times 0.01 and 0.03
    whose features are 0.3 and 0.9, queried at 0.029999999999999995,
    which lies strictly between the two times, the fraction rounds to 1
    and the snapshot has [rms = 0.9000000000000001], above both frames:
    it is [lerp(0.3, 0.9, 1)], the end of the interval of the amended
    claim. *)
Lemma between_samples_binary64_counterexample :
  let l := [Binary64.sample 0.01 0.3; Binary64.sample 0.03 0.9] in
  let t := 0.029999999999999995 in
  (0.01 <? t) = true /\ (t <? 0.03) = true /\
  exists s : Binary64.Frame,
    Binary64.getFrameAtTime (Some l) t = Done (Binary64.Snap s) /\
    Binary64.rms s = 0.9000000000000001 /\
    (0.3 <? Binary64.rms s) = true /\
    (0.9 <? Binary64.rms s) = true /\
    Binary64.rms s = Binary64.lerp 0.3 0.9 1.
Proof.
  split; [reflexivity|]. split; [reflexivity|].
  eexists. split; [vm_compute; reflexivity|].
  split; [reflexivity|]. split; [reflexivity|]. split; reflexivity.
Qed.

End BetweenSamplesBinary64.

(** C3.  On a non-empty sequence sorted ascending by time, for [t] at or
    after the last frame's time, getFrameAtTime returns the last frame
    verbatim: nothing is extrapolated. *)
Theorem at_or_after_last_returns_last
    (l : list Frame) (fl : Frame) (t : Q) :
  ascending l = true ->
  last l = Some fl ->
  time fl <= t ->
  getFrameAtTime (Some l) t = Done (Snap fl).
Proof.
  intros Hs Hlast Ht.
  rewrite last_lookup in Hlast.
  rewrite (getFrameAtTime_at l t (pred (length l)) fl); [| |exact Hlast].
  - replace (length l - 1 <=? pred (length l))%nat with true; [reflexivity|].
    symmetry. apply Nat.leb_le. lia.
  - apply located_index with fl; [exact Hs|exact Hlast|exact Ht|].
    intros g Hg. apply lookup_lt_Some in Hg, Hlast. lia.
Qed.

Lemma at_or_after_last_witness :
  let l := [sample 0 0; sample 1 1] in
  ascending l = true /\
  getFrameAtTime (Some l) 5 = Done (Snap (sample 1 1)).
Proof.
  split; [reflexivity|].
  apply at_or_after_last_returns_last.
  - reflexivity.
  - reflexivity.
  - discriminate.
Defined.

(** C4 (amended).  For a non-empty sequence the returned object has its
    [time] field equal to the query time [t] whenever the located frame is
    not the last frame of the sequence; when the located frame is the last
    one the object is that frame as stored, so its [time] field is the
    last frame's stored time. *)
Theorem snapshot_time_field (l : list Frame) (t : Q) :
  l <> [] ->
  exists (idx : nat) (s : Snapshot),
    getFrameIndex (Some l) t = Done idx /\
    getFrameAtTime (Some l) t = Done s /\
    ((idx < length l - 1)%nat ->
     exists q, snapshotTime s = Some q /\ q == t) /\
    ((length l - 1 <= idx)%nat ->
     exists fl, last l = Some fl /\ s = Snap fl).
Proof.
  intros Hne.
  destruct (getFrameAtTime_cases l t Hne) as (idx & f & Hidx & Hf & _ & _ & ->).
  exists idx.
  destruct (length l - 1 <=? idx)%nat eqn:Hlast.
  - apply Nat.leb_le in Hlast. exists (Snap f).
    repeat split; [exact Hidx|lia|].
    intros _. exists f. split; [|reflexivity].
    rewrite last_lookup. apply lookup_lt_Some in Hf as Hlt.
    replace (pred (length l)) with idx by lia. exact Hf.
  - apply Nat.leb_gt in Hlast as Hlt.
    destruct (Qeq_bool (time f) t) eqn:E.
    + exists (Snap f). repeat split; [exact Hidx| |lia].
      intros _. exists (time f). split; [reflexivity|].
      now apply Qeq_bool_iff.
    + destruct (successor_exists l idx Hlast) as [g ->].
      exists (interpolate f g t). repeat split; [exact Hidx| |lia].
      intros _. exists t. split; [|reflexivity].
      apply interpolate_time.
Qed.

Lemma snapshot_time_field_witness :
  exists (idx : nat) (s : Snapshot),
    getFrameIndex (Some [sample 0 0; sample 1 1]) (1 # 2) = Done idx /\
    getFrameAtTime (Some [sample 0 0; sample 1 1]) (1 # 2) = Done s /\
    ((idx < 2 - 1)%nat -> exists q, snapshotTime s = Some q /\ q == 1 # 2) /\
    ((2 - 1 <= idx)%nat ->
     exists fl, last [sample 0 0; sample 1 1] = Some fl /\ s = Snap fl).
Proof.
  apply (snapshot_time_field [sample 0 0; sample 1 1] (1 # 2)).
  discriminate.
Defined.

(** C4 as stated fails past the last sample: queried at time 5, the
    one-frame sequence sampled at time 0 yields an object whose [time]
    field is the stored 0. *)
Lemma snapshot_time_counterexample :
  getFrameAtTime (Some [sample 0 0]) 5 = Done (Snap (sample 0 0)) /\
  snapshotTime (Snap (sample 0 0)) = Some 0 /\
  ~ 0 == 5.
Proof.
  repeat split. discriminate.
Qed.




(** C6.  getFrameAtTime returns [null] exactly when [frames] is absent or
    empty; on every non-empty sequence and every query time it returns an
    object (a snapshot), without throwing and without running on. *)
Theorem null_iff_no_frames :
  (forall (frames : option (list Frame)) (t : Q),
     getFrameAtTime frames t = Done Null <->
     frames = None \/ frames = Some []) /\
  (forall (l : list Frame) (t : Q),
     l <> [] ->
     exists s : Snapshot,
       getFrameAtTime (Some l) t = Done s /\
       ((exists f, s = Snap f) \/ s = NonFinite t)).
Proof.
  split; [|exact getFrameAtTime_object].
  intros frames t. split.
  - destruct frames as [[|f0 l']|]; [now right| |now left].
    intros H.
    destruct (getFrameAtTime_object (f0 :: l') t) as (s & Hs & Hobj);
      [discriminate|].
    rewrite Hs in H. injection H as ->.
    destruct Hobj as [[f Hf] | Hf]; discriminate.
  - intros [-> | ->]; reflexivity.
Qed.

Lemma null_iff_no_frames_witness :
  getFrameAtTime (Some []) 3 = Done Null /\
  exists s : Snapshot,
    getFrameAtTime (Some [sample 0 0; sample 1 1]) 3 = Done s /\
    ((exists f, s = Snap f) \/ s = NonFinite 3).
Proof.
  split.
  - apply (proj1 null_iff_no_frames). now right.
  - apply (proj2 null_iff_no_frames). discriminate.
Defined.

(** ** Feature smoother *)

Section SinglePole.

Lemma smooth_factor (s : Smoother) (x : Q) :
  factor (smooth s x).2 = factor s.
Proof. reflexivity. Qed.

Lemma smooth_value (s : Smoother) (x : Q) :
  value (smooth s x).2 = Some (smooth s x).1.
Proof. reflexivity. Qed.

Lemma stateAfter_factor (s : Smoother) (targets : list Q) :
  factor (stateAfter s targets) = factor s.
Proof.
  revert s. induction targets as [|x xs IH]; intros s; [reflexivity|].
  simpl. now rewrite IH.
Qed.

Lemma feed_length (s : Smoother) (targets : list Q) :
  length (feed s targets) = length targets.
Proof.
  revert s. induction targets as [|x xs IH]; intros s; [reflexivity|].
  simpl. now rewrite IH.
Qed.

(** The first output of a smoother that holds nothing is its target. *)
Lemma feed_first (s : Smoother) (targets : list Q) (x : Q) :
  value s = None -> targets !! 0%nat = Some x ->
  feed s targets !! 0%nat = Some x.
Proof.
  intros Hv Hx. destruct targets as [|y ys]; [discriminate|].
  injection Hx as ->. simpl. unfold smooth. now rewrite Hv.
Qed.

(** Every later output is the [lerp] from the output before it. *)
Lemma feed_next (s : Smoother) (targets : list Q) (n : nat) (prev x : Q) :
  feed s targets !! n = Some prev -> targets !! S n = Some x ->
  feed s targets !! S n = Some (lerp prev x (factor s)).
Proof.
  revert s targets. induction n as [|n IH]; intros s targets Hp Hx.
  - destruct targets as [|x0 [|x1 xs]]; try discriminate.
    simpl in Hp, Hx. injection Hp as <-. injection Hx as <-.
    reflexivity.
  - destruct targets as [|x0 xs]; [discriminate|].
    change (feed (smooth s x0).2 xs !! n = Some prev) in Hp.
    change (xs !! S n = Some x) in Hx.
    change (feed s (x0 :: xs) !! S (S n))
      with (feed (smooth s x0).2 xs !! S n).
    rewrite (IH (smooth s x0).2 xs Hp Hx). now rewrite smooth_factor.
Qed.

End SinglePole.

(** C7.  For responsiveness [r] in (0, 1], the smoother made by
    createSmoother(r) returns its argument verbatim on its first call, and
    on every later call with target [x] returns [prev + (x - prev) * r],
    [prev] being what the call before returned. *)
Theorem smoother_first_then_lerp (r : Q) (targets : list Q) :
  0 < r -> r <= 1 ->
  let outputs := feed (createSmoother (Some r)) targets in
  (forall x, targets !! 0%nat = Some x -> outputs !! 0%nat = Some x) /\
  (forall (n : nat) (prev x : Q),
     outputs !! n = Some prev -> targets !! S n = Some x ->
     outputs !! S n = Some (prev + (x - prev) * r)).
Proof.
  intros _ _ outputs. split.
  - intros x Hx. now apply feed_first.
  - intros n prev x Hp Hx. exact (feed_next _ _ _ _ _ Hp Hx).
Qed.

Lemma smoother_first_then_lerp_witness :
  let outputs := feed (createSmoother (Some (1 # 2))) [4; 8; 0] in
  (forall x, [4; 8; 0] !! 0%nat = Some x -> outputs !! 0%nat = Some x) /\
  (forall (n : nat) (prev x : Q),
     outputs !! n = Some prev -> [4; 8; 0] !! S n = Some x ->
     outputs !! S n = Some (prev + (x - prev) * (1 # 2))).
Proof.
  apply (smoother_first_then_lerp (1 # 2) [4; 8; 0]).
  - reflexivity.
  - discriminate.
Defined.

(** ** Convergence on a constant target *)

Section RoundedSinglePole.

Variable rnd : Q -> Q.


Lemma rounded_feed_length (s : Smoother) (targets : list Q) :
  length (Rounded.feed rnd s targets) = length targets.
Proof.
  revert s. induction targets as [|x xs IH]; intros s; [reflexivity|].
  simpl. now rewrite IH.
Qed.



Hypothesis rnd_rounding : rounding rnd.





End RoundedSinglePole.

Section Convergence.

Variable rnd : Q -> Q.
Variables r x : Q.
Hypothesis r_pos : 0 < r.
Hypothesis r_le_1 : r <= 1.
Hypothesis rnd_exact : exact rnd.









End Convergence.




Section SmootherBinary64.

Import PrimFloat.

Local Open Scope float_scope.



End SmootherBinary64.

(** ** Dominant pitch *)

(** [i] is the position of a maximum of [chroma] with nothing as large
    before it. *)
Lemma first_argmax_unique (chroma : list Q) (i j : nat) (m m' : Q) :
  chroma !! i = Some m -> chroma !! j = Some m' ->
  (forall n c, chroma !! n = Some c -> c <= m) ->
  (forall n c, (n < i)%nat -> chroma !! n = Some c -> c < m) ->
  (forall n c, chroma !! n = Some c -> c <= m') ->
  (forall n c, (n < j)%nat -> chroma !! n = Some c -> c < m') ->
  i = j.
Proof.
  intros Hi Hj Hmax Hfirst Hmax' Hfirst'.
  destruct (Nat.lt_trichotomy i j) as [Hlt | [Heq | Hgt]]; [|exact Heq|].
  - pose proof (Hfirst' i m Hlt Hi). pose proof (Hmax j m' Hj). lra.
  - pose proof (Hfirst j m' Hgt Hj). pose proof (Hmax' i m Hi). lra.
Qed.

(** The loop keeps, for the part of the array already seen, the position
    and value of its first maximum. *)
Lemma pitchLoop_spec (seen rest : list Q) (maxIdx : nat) (maxVal : Q) :
  seen !! maxIdx = Some maxVal ->
  (forall n c, seen !! n = Some c -> c <= maxVal) ->
  (forall n c, (n < maxIdx)%nat -> seen !! n = Some c -> c < maxVal) ->
  let idx := pitchLoop rest (length seen) maxIdx maxVal in
  exists m,
    (seen ++ rest) !! idx = Some m /\
    (forall n c, (seen ++ rest) !! n = Some c -> c <= m) /\
    (forall n c, (n < idx)%nat -> (seen ++ rest) !! n = Some c -> c < m).
Proof.
  revert seen maxIdx maxVal.
  induction rest as [|c rest IH]; intros seen maxIdx maxVal Hidx Hmax Hfirst.
  - cbn. rewrite app_nil_r. eauto.
  - cbn [pitchLoop].
    replace (seen ++ c :: rest) with ((seen ++ [c]) ++ rest)
      by (rewrite <- app_assoc; reflexivity).
    replace (S (length seen)) with (length (seen ++ [c]))
      by (rewrite length_app; simpl; lia).
    destruct (Qgt_bool c maxVal) eqn:Hcmp.
    + apply Qgt_bool_true in Hcmp. apply IH.
      * rewrite lookup_app_r by lia. now rewrite Nat.sub_diag.
      * intros n d Hn. apply lookup_app_Some in Hn.
        destruct Hn as [Hn | [_ Hn]].
        -- pose proof (Hmax n d Hn). lra.
        -- apply list_lookup_singleton_Some in Hn. destruct Hn as [_ <-].
           apply Qle_refl.
      * intros n d Hlt Hn. rewrite lookup_app_l in Hn by exact Hlt.
        pose proof (Hmax n d Hn). lra.
    + apply Qgt_bool_false in Hcmp. apply IH.
      * rewrite lookup_app_l; [exact Hidx|]. now apply lookup_lt_Some in Hidx.
      * intros n d Hn. apply lookup_app_Some in Hn.
        destruct Hn as [Hn | [_ Hn]].
        -- exact (Hmax n d Hn).
        -- apply list_lookup_singleton_Some in Hn. destruct Hn as [_ <-].
           exact Hcmp.
      * intros n d Hlt Hn. apply lookup_lt_Some in Hidx as Hin.
        rewrite lookup_app_l in Hn by lia. exact (Hfirst n d Hlt Hn).
Qed.

Lemma getDominantPitch_spec (chroma : list Q) :
  chroma <> [] ->
  exists m,
    chroma !! getDominantPitch chroma = Some m /\
    (forall n c, chroma !! n = Some c -> c <= m) /\
    (forall n c, (n < getDominantPitch chroma)%nat ->
                 chroma !! n = Some c -> c < m).
Proof.
  intros Hne. destruct chroma as [|c0 rest]; [congruence|].
  apply (pitchLoop_spec [c0] rest 0 c0).
  - reflexivity.
  - intros [|n] c Hn; [|discriminate]. injection Hn as <-. apply Qle_refl.
  - intros n c Hlt. lia.
Qed.

(** C9.  On a non-empty chroma vector getDominantPitch returns the index
    of a maximum element, and of the first one when several tie (every
    element before it is strictly smaller); in particular it returns 1 on
    a 12-element vector whose only maximum is at index 1. *)
Theorem dominant_pitch_is_first_argmax :
  (forall chroma : list Q,
     chroma <> [] ->
     exists m,
       chroma !! getDominantPitch chroma = Some m /\
       (forall n c, chroma !! n = Some c -> c <= m) /\
       (forall n c, (n < getDominantPitch chroma)%nat ->
                    chroma !! n = Some c -> c < m)) /\
  (forall (chroma : list Q) (m : Q),
     length chroma = 12%nat ->
     chroma !! 1%nat = Some m ->
     (forall n c, n <> 1%nat -> chroma !! n = Some c -> c < m) ->
     getDominantPitch chroma = 1%nat).
Proof.
  split; [exact getDominantPitch_spec|].
  intros chroma m Hlen H1 Huniq.
  destruct (getDominantPitch_spec chroma) as (m' & Hidx & Hmax & Hfirst).
  { intros ->. discriminate. }
  apply (first_argmax_unique chroma _ 1%nat m' m Hidx H1 Hmax Hfirst).
  - intros n c Hn. destruct (Nat.eq_dec n 1%nat) as [-> | Hne].
    + assert (c = m) as -> by congruence. apply Qle_refl.
    + pose proof (Huniq n c Hne Hn). lra.
  - intros n c Hlt Hn. apply (Huniq n c); [lia|exact Hn].
Qed.

Lemma dominant_pitch_witness :
  let chroma := [1 # 10; 9 # 10; 2 # 10; 0; 0; 9 # 10; 0; 0; 0; 0; 0; 0] in
  getDominantPitch chroma = 1%nat /\
  exists m,
    chroma !! getDominantPitch chroma = Some m /\
    (forall n c, chroma !! n = Some c -> c <= m) /\
    (forall n c, (n < getDominantPitch chroma)%nat ->
                 chroma !! n = Some c -> c < m).
Proof.
  split; [reflexivity|].
  apply (proj1 dominant_pitch_is_first_argmax). discriminate.
Defined.

(** ** Aggregate smoother *)

Lemma get_feature {A : Type} (own : gmap string A) (key : string) :
  inherited key = false ->
  get own key = match own !! key with Some a => Own a | None => Undefined end.
Proof. intros H. unfold get. rewrite H. reflexivity. Qed.

Lemma get_undefined {A : Type} (own : gmap string A) (key : string) :
  get own key = Undefined -> own !! key = None /\ inherited key = false.
Proof.
  unfold get. destruct (own !! key); [discriminate|].
  destruct (inherited key); [discriminate|]. split; reflexivity.
Qed.

(** An inherited member is truthy: the default is not taken and nothing
    is a number. *)
Lemma factorFor_inherited (F : gmap string Q) (key : string) :
  inherited key = true -> F !! key = None -> factorFor F key = None.
Proof. intros H HF. unfold factorFor, get. rewrite HF, H. reflexivity. Qed.

(** The responsiveness of a feature name. *)
Lemma factorFor_feature (F : gmap string Q) (key : string) :
  inherited key = false ->
  exists r : Q,
    factorFor F key = Some r /\
    (F !! key = None -> r = 15 # 100) /\
    (forall f, F !! key = Some f -> f == 0 -> r = 15 # 100) /\
    (forall f, F !! key = Some f -> ~ f == 0 -> r = f) /\
    ~ r == 0.
Proof.
  intros H. unfold factorFor. rewrite (get_feature F key H).
  destruct (F !! key) as [f|] eqn:HF.
  - destruct (Qeq_bool f 0) eqn:E.
    + exists defaultFactor. split; [reflexivity|].
      split; [discriminate|]. split; [reflexivity|]. split.
      * intros f' Hf' Hz. injection Hf' as <-.
        apply Qeq_bool_iff in E. contradiction.
      * discriminate.
    + exists f. apply Qeq_bool_false in E. split; [reflexivity|].
      split; [discriminate|]. split.
      * intros f' Hf' Hz. injection Hf' as <-. contradiction.
      * split; [|exact E]. intros f' Hf' _. now injection Hf' as <-.
  - exists defaultFactor. split; [reflexivity|]. split; [reflexivity|].
    split; [discriminate|]. split; [discriminate|]. discriminate.
Qed.

Lemma smootherFor_same (r : Q) (sm : gmap string Smoother) (k : string)
    (o : option Smoother) :
  sm !! k = o -> smootherFor r sm k = default (createSmoother (Some r)) o.
Proof. intros <-. reflexivity. Qed.

Section Aggregate.

Variable F : gmap string Q.

(** A round of the loop leaves the other keys alone. *)
Lemma smoothKey_other (res res' : gmap string Value)
    (sm sm' : gmap string Smoother) (k0 k : string) (x0 : Q) :
  k0 <> k ->
  smoothKey F res sm k0 x0 = (Done res', sm') ->
  res' !! k = res !! k /\ sm' !! k = sm !! k.
Proof.
  intros Hne. unfold smoothKey.
  destruct (get sm k0) as [s| |].
  - intros H. injection H as <- <-.
    rewrite !lookup_insert_ne by exact Hne. split; reflexivity.
  - unfold callInherited. destruct (throwsWhenCalled k0); [discriminate|].
    cbn [bind]. intros H. injection H as <- <-.
    rewrite lookup_insert_ne by exact Hne. split; reflexivity.
  - destruct (factorFor F k0) as [f|]; [|discriminate].
    intros H. injection H as <- <-.
    rewrite !lookup_insert_ne by exact Hne. split; reflexivity.
Qed.

(** A round returns unless the key is an inherited member that throws. *)
Lemma smoothKey_returns (res : gmap string Value) (sm : gmap string Smoother)
    (k0 : string) (x0 : Q) :
  throwsWhenCalled k0 = false ->
  exists res' sm', smoothKey F res sm k0 x0 = (Done res', sm').
Proof.
  intros Hk. unfold smoothKey. destruct (get sm k0) as [s| |] eqn:Hget.
  - eauto.
  - unfold callInherited. rewrite Hk. cbn [bind]. eauto.
  - apply get_undefined in Hget. destruct Hget as [_ Hinh].
    destruct (factorFor_feature F k0 Hinh) as (r & -> & _). eauto.
Qed.

(** A round on a feature name: its own smoother is called, made first
    when the table does not have it. *)
Lemma smoothKey_feature (res : gmap string Value) (sm : gmap string Smoother)
    (k : string) (x r : Q) :
  inherited k = false -> factorFor F k = Some r ->
  smoothKey F res sm k x =
  (Done (<[k := Number (smooth (smootherFor r sm k) x).1]> res),
   <[k := (smooth (smootherFor r sm k) x).2]> sm).
Proof.
  intros Hinh Hr. unfold smoothKey, smootherFor.
  rewrite (get_feature sm k Hinh), Hr.
  destruct (sm !! k); reflexivity.
Qed.

(** The loop returns when no key throws. *)
Lemma loop_returns (entries : list (string * Q)) (res : gmap string Value)
    (sm : gmap string Smoother) :
  Forall (fun entry => throwsWhenCalled entry.1 = false) entries ->
  exists result sm', smoothLoop F entries res sm = (Done result, sm').
Proof.
  revert res sm. induction entries as [|[k0 x0] rest IH]; intros res sm Hok.
  - cbn. eauto.
  - apply Forall_cons in Hok. destruct Hok as [Hk0 Hok]. cbn [fst] in Hk0.
    destruct (smoothKey_returns res sm k0 x0 Hk0) as (res' & sm' & Hstep).
    cbn [smoothLoop]. rewrite Hstep. apply IH. exact Hok.
Qed.

(** A key the loop does not visit keeps its entries. *)
Lemma loop_other (entries : list (string * Q)) (res result : gmap string Value)
    (sm sm' : gmap string Smoother) (k : string) :
  k ∉ entries.*1 ->
  smoothLoop F entries res sm = (Done result, sm') ->
  result !! k = res !! k /\ sm' !! k = sm !! k.
Proof.
  revert res sm. induction entries as [|[k0 x0] rest IH]; intros res sm Hk Hrun.
  - cbn in Hrun. injection Hrun as <- <-. split; reflexivity.
  - rewrite fmap_cons, not_elem_of_cons in Hk. destruct Hk as [Hne Hk].
    cbn [fst] in Hne. cbn [smoothLoop] in Hrun.
    destruct (smoothKey F res sm k0 x0) as [[res1| |] sm1] eqn:Hstep;
      try discriminate.
    destruct (smoothKey_other res res1 sm sm1 k0 k x0) as [<- <-];
      [congruence|exact Hstep|].
    apply IH; assumption.
Qed.

(** A feature the loop visits gets the output of its own smoother, and
    the table keeps that smoother as it is after the call. *)
Lemma loop_visited (entries : list (string * Q)) (res result : gmap string Value)
    (sm sm' : gmap string Smoother) (k : string) (x r : Q) :
  NoDup entries.*1 -> (k, x) ∈ entries ->
  inherited k = false -> factorFor F k = Some r ->
  smoothLoop F entries res sm = (Done result, sm') ->
  result !! k = Some (Number (smooth (smootherFor r sm k) x).1) /\
  sm' !! k = Some (smooth (smootherFor r sm k) x).2.
Proof.
  intros Hnd Hin Hinh Hr. revert res sm Hnd Hin.
  induction entries as [|[k0 x0] rest IH]; intros res sm Hnd Hin Hrun.
  - inversion Hin.
  - rewrite fmap_cons in Hnd. apply NoDup_cons in Hnd.
    destruct Hnd as [Hfresh Hnd]. cbn [fst] in Hfresh.
    cbn [smoothLoop] in Hrun.
    apply elem_of_cons in Hin. destruct Hin as [Heq | Hin].
    + injection Heq as <- <-.
      rewrite (smoothKey_feature res sm k x r Hinh Hr) in Hrun.
      destruct (loop_other rest _ result _ sm' k Hfresh Hrun) as [-> ->].
      rewrite !lookup_insert_eq. split; reflexivity.
    + assert (Hne : k0 <> k).
      { intros ->. apply Hfresh. apply list_elem_of_fmap.
        exists (k, x). split; [reflexivity|exact Hin]. }
      destruct (smoothKey F res sm k0 x0) as [[res1| |] sm1] eqn:Hstep;
        try discriminate.
      destruct (smoothKey_other res res1 sm sm1 k0 k x0 Hne Hstep) as [_ Hsm].
      destruct (IH res1 sm1 Hnd Hin Hrun) as [-> ->].
      unfold smootherFor. rewrite Hsm. split; reflexivity.
Qed.

End Aggregate.

(** One call of the aggregate smoother, seen from one feature name. *)
Lemma smoothObject_key (os : ObjectSmoother) (obj : list (string * Q))
    (k : string) (r : Q) :
  smoothable obj -> inherited k = false -> factorFor (factors os) k = Some r ->
  exists result : gmap string Value,
    (smoothObject os obj).1 = Done result /\
    factors (smoothObject os obj).2 = factors os /\
    match property k obj with
    | Some x =>
        result !! k =
          Some (Number (smooth (smootherFor r (smoothers os) k) x).1) /\
        smoothers (smoothObject os obj).2 !! k =
          Some (smooth (smootherFor r (smoothers os) k) x).2
    | None =>
        result !! k = None /\
        smoothers (smoothObject os obj).2 !! k = smoothers os !! k
    end.
Proof.
  intros [Hnd Hok] Hinh Hr.
  destruct (loop_returns (factors os) obj ∅ (smoothers os) Hok)
    as (result & sm' & Hrun).
  exists result. unfold smoothObject. cbv zeta. rewrite Hrun.
  cbn [fst snd smoothers factors].
  split; [reflexivity|]. split; [reflexivity|].
  unfold property. destruct (list_to_map obj !! k) as [x|] eqn:Hk.
  - apply elem_of_list_to_map in Hk; [|exact Hnd].
    exact (loop_visited (factors os) obj ∅ result (smoothers os) sm' k x r
             Hnd Hk Hinh Hr Hrun).
  - apply not_elem_of_list_to_map in Hk.
    destruct (loop_other (factors os) obj ∅ result (smoothers os) sm' k Hk Hrun)
      as [-> ->].
    split; [apply lookup_empty|reflexivity].
Qed.

(** Over any run of calls, what the aggregate returns under a feature
    name is what the smoother of that name returns on the values passed
    under it. *)
Lemma feedObject_key (os : ObjectSmoother) (objs : list (list (string * Q)))
    (k : string) (r : Q) :
  Forall smoothable objs ->
  inherited k = false -> factorFor (factors os) k = Some r ->
  Forall (fun outcome => exists result, outcome = Done result)
         (feedObject os objs) /\
  omap (resultAt k) (feedObject os objs) =
  Number <$> feed (smootherFor r (smoothers os) k) (omap (property k) objs).
Proof.
  intros Hobjs Hinh. revert os.
  induction Hobjs as [|obj rest Hobj Hrest IH]; intros os Hr.
  - split; [constructor|reflexivity].
  - cbn [feedObject omap list_omap].
    destruct (smoothObject_key os obj k r Hobj Hinh Hr)
      as (result & Hres & HF & Hk).
    destruct (IH (smoothObject os obj).2) as [Hret Hrun];
      [now rewrite HF|].
    split; [constructor; [eauto|exact Hret]|].
    rewrite Hrun, Hres. cbn [resultAt].
    destruct (property k obj) as [x|]; destruct Hk as [Hval Hsm]; rewrite Hval.
    + rewrite (smootherFor_same r _ k _ Hsm). reflexivity.
    + rewrite (smootherFor_same r _ k _ Hsm). reflexivity.
Qed.

(** C10 (amended).  For every key that is not the name of a member
    inherited from [Object.prototype], the aggregate smoother made by
    createObjectSmoother(factors) keeps one independent single-pole
    smoother, made on the first call that carries the key: over any run
    of calls on objects that carry no inherited member that throws when
    called, every call returns and the values returned under the key are
    those of a smoother of its own fed the values passed under that key.
    Its responsiveness is the configured factor when that is a non-zero
    number, and 0.15 when the key has no entry or its entry is 0, so it
    is never zero. *)
Theorem object_smoother_per_key (F : gmap string Q) (key : string) :
  inherited key = false ->
  exists r : Q,
    factorFor F key = Some r /\
    (F !! key = None -> r = 15 # 100) /\
    (forall f, F !! key = Some f -> f == 0 -> r = 15 # 100) /\
    (forall f, F !! key = Some f -> ~ f == 0 -> r = f) /\
    ~ r == 0 /\
    (forall objs : list (list (string * Q)),
       Forall smoothable objs ->
       Forall (fun outcome => exists result, outcome = Done result)
              (feedObject (createObjectSmoother (Some F)) objs) /\
       omap (resultAt key) (feedObject (createObjectSmoother (Some F)) objs) =
       Number <$> feed (createSmoother (Some r)) (omap (property key) objs)) /\
    (forall (sm : gmap string Smoother) (obj : list (string * Q)),
       smoothable obj -> sm !! key = None ->
       let os := {| factors := F; smoothers := sm |} in
       match property key obj with
       | Some x =>
           smoothers (smoothObject os obj).2 !! key =
           Some (smooth (createSmoother (Some r)) x).2
       | None => smoothers (smoothObject os obj).2 !! key = None
       end).
Proof.
  intros Hinh.
  destruct (factorFor_feature F key Hinh) as (r & Hr & Hnone & Hzero & Hset & Hnz).
  exists r. repeat (split; [assumption|]). split.
  - intros objs Hobjs.
    exact (feedObject_key (createObjectSmoother (Some F)) objs key r
             Hobjs Hinh Hr).
  - intros sm obj Hobj Hnew os.
    destruct (smoothObject_key os obj key r Hobj Hinh Hr) as (result & _ & _ & Hk).
    unfold smootherFor in Hk. cbn [smoothers os] in Hk. rewrite Hnew in Hk.
    destruct (property key obj); destruct Hk as [_ Hk]; exact Hk.
Qed.

Lemma object_smoother_witness :
  exists r : Q,
    factorFor {[ "rms"%string := 0 ]} "rms" = Some r /\ r = 15 # 100 /\
    omap (resultAt "rms")
         (feedObject (createObjectSmoother (Some {[ "rms"%string := 0 ]}))
                     [ [("rms"%string, 1); ("toString"%string, 3)];
                       [("rms"%string, 0)] ]) =
    Number <$> feed (createSmoother (Some r))
                    (omap (property "rms")
                          [ [("rms"%string, 1); ("toString"%string, 3)];
                            [("rms"%string, 0)] ]).
Proof.
  destruct (object_smoother_per_key {[ "rms"%string := 0 ]} "rms" eq_refl)
    as (r & Hr & _ & Hzero & _ & _ & Hrun & _).
  exists r. split; [exact Hr|]. split.
  - apply (Hzero 0); reflexivity.
  - apply Hrun. repeat constructor; try (intros H; inversion H; fail).
    + intros H. apply elem_of_cons in H. destruct H as [H|H]; [discriminate|inversion H].
Defined.

(** C10 as stated fails for the names a plain object inherits.  Under
    [constructor] no smoother is made on first sight, what the call
    returns is not a smoothed number, and the factor read for the key is
    not 0.15; an object with an own [__proto__] property makes the call
    throw. *)
Lemma object_smoother_inherited_counterexample :
  let os := createObjectSmoother (Some ∅) in
  (smoothObject os [("constructor"%string, 1)]).1
    = Done {[ "constructor"%string := Other ]} /\
  smoothers (smoothObject os [("constructor"%string, 1)]).2
    !! "constructor"%string = None /\
  factorFor ∅ "constructor" = None /\
  (smoothObject os [("__proto__"%string, 1)]).1 = TypeError.
Proof. repeat split. Qed.

(** ** The scenarios listed with the testable properties *)

(** A two-frame dataset with [rms] 0 at time 0 and 1 at time 1, resolved
    at time 0.5. *)
Example resolve_midpoint :
  exists s : Frame,
    getFrameAtTime (Some [sample 0 0; sample 1 1]) (1 # 2) = Done (Snap s) /\
    rms s == 1 # 2 /\ time s = 1 # 2.
Proof.
  eexists. split; [vm_compute; reflexivity|]. split; reflexivity.
Qed.

Example resolve_empty (t : Q) : getFrameAtTime (Some []) t = Done Null.
Proof. reflexivity. Qed.

(** Two adjacent frames with one time, queried before it: the fraction
    divides by zero and the object carries no finite features. *)
Example resolve_zero_span :
  getFrameAtTime (Some [sample 1 0; sample 1 1]) 0 = Done (NonFinite 0).
Proof. reflexivity. Qed.

Example dominant_pitch_tie :
  getDominantPitch [1 # 10; 9 # 10; 2 # 10; 9 # 10] = 1%nat.
Proof. reflexivity. Qed.

Example smoother_run :
  feed (createSmoother (Some (1 # 2))) [4; 8; 0] = [4; 4 + (8 - 4) * (1 # 2);
    (4 + (8 - 4) * (1 # 2)) + (0 - (4 + (8 - 4) * (1 # 2))) * (1 # 2)].
Proof. reflexivity. Qed.

(** * Further properties of the mapping utilities *)

(** ** lerp, map, clamp *)

Lemma Qlt_bool_true (x y : Q) : Qlt_bool x y = true <-> x < y.
Proof. apply Qgt_bool_true. Qed.

Lemma Qlt_bool_false (x y : Q) : Qlt_bool x y = false <-> y <= x.
Proof. apply Qgt_bool_false. Qed.

Lemma map_value (v inMin inMax outMin outMax : Q) :
  ~ inMax - inMin == 0 ->
  map v inMin inMax outMin outMax =
  Some ((v - inMin) / (inMax - inMin) * (outMax - outMin) + outMin).
Proof.
  intros H. unfold map. destruct (Qeq_bool (inMax - inMin) 0) eqn:E.
  - apply Qeq_bool_iff in E. contradiction.
  - reflexivity.
Qed.

Lemma clamp_cases (v lo hi : Q) :
  lo <= hi ->
  (v <= lo /\ clamp v lo hi = lo) \/
  (lo < v /\ v <= hi /\ clamp v lo hi = v) \/
  (hi < v /\ clamp v lo hi = hi).
Proof.
  intros Hb. unfold clamp, Math.max, Math.min.
  destruct (Qle_bool v lo) eqn:E1.
  - apply Qle_bool_iff in E1. left. split; [exact E1|].
    destruct (Qle_bool lo hi) eqn:E2; [reflexivity|].
    apply Qle_bool_false in E2. lra.
  - apply Qle_bool_false in E1. right.
    destruct (Qle_bool v hi) eqn:E2.
    + apply Qle_bool_iff in E2. left. auto.
    + apply Qle_bool_false in E2. right. auto.
Qed.

(** X5.  With [min <= max], clamp returns a value within [min, max],
    returns an in-range value unchanged, and clamping twice is clamping
    once. *)
Theorem clamp_within (v lo hi : Q) :
  lo <= hi ->
  (lo <= clamp v lo hi /\ clamp v lo hi <= hi) /\
  (lo <= v -> v <= hi -> clamp v lo hi == v) /\
  clamp (clamp v lo hi) lo hi == clamp v lo hi.
Proof.
  intros Hb. split; [|split].
  - destruct (clamp_cases v lo hi Hb) as [[? ->] | [(? & ? & ->) | [? ->]]]; lra.
  - intros H1 H2.
    destruct (clamp_cases v lo hi Hb) as [[? ->] | [(? & ? & ->) | [? ->]]]; lra.
  - destruct (clamp_cases v lo hi Hb) as [[? E] | [(? & ? & E) | [? E]]];
      rewrite E.
    + destruct (clamp_cases lo lo hi Hb)
        as [[? ->] | [(? & ? & ->) | [? ->]]]; lra.
    + rewrite E. reflexivity.
    + destruct (clamp_cases hi lo hi Hb)
        as [[? ->] | [(? & ? & ->) | [? ->]]]; lra.
Qed.

Lemma clamp_within_witness :
  (0 <= clamp 7 0 1 /\ clamp 7 0 1 <= 1) /\
  (0 <= 7 -> 7 <= 1 -> clamp 7 0 1 == 7) /\
  clamp (clamp 7 0 1) 0 1 == clamp 7 0 1.
Proof.
  apply (clamp_within 7 0 1). discriminate.
Defined.

(** X6.  With the bounds the wrong way round ([max < min]) clamp returns
    [max] whatever the value. *)
Theorem clamp_inverted_bounds (v lo hi : Q) :
  hi < lo -> clamp v lo hi = hi.
Proof.
  intros Hb. unfold clamp, Math.max, Math.min.
  destruct (Qle_bool v lo) eqn:E1.
  - destruct (Qle_bool lo hi) eqn:E2; [|reflexivity].
    apply Qle_bool_iff in E2. lra.
  - apply Qle_bool_false in E1.
    destruct (Qle_bool v hi) eqn:E2; [|reflexivity].
    apply Qle_bool_iff in E2. lra.
Qed.

Lemma clamp_inverted_bounds_witness : clamp 5 10 0 = 0.
Proof. apply clamp_inverted_bounds. reflexivity. Defined.

(** ** easeInOut *)

(** The curve on the clamped argument: the lower parabola before one
    half, the upper one from there on. *)
Lemma easeInOut_cases (t : Q) :
  exists c : Q,
    c == clamp t 0 1 /\ 0 <= c /\ c <= 1 /\
    ((c < 1 # 2 /\ easeInOut t == 2 * c * c) \/
     (1 # 2 <= c /\ easeInOut t == 1 - 2 * (1 - c) * (1 - c))).
Proof.
  exists (clamp t 0 1). split; [reflexivity|].
  assert (Hb : 0 <= 1) by discriminate.
  assert (H01 : 0 <= clamp t 0 1 /\ clamp t 0 1 <= 1).
  { destruct (clamp_cases t 0 1 Hb)
      as [[? ->] | [(? & ? & ->) | [? ->]]]; lra. }
  destruct H01 as [H0 H1].
  split; [exact H0|]. split; [exact H1|].
  unfold easeInOut. destruct (Qlt_bool (clamp t 0 1) (1 # 2)) eqn:E.
  - apply Qlt_bool_true in E. left. split; [exact E|reflexivity].
  - apply Qlt_bool_false in E. right. split; [exact E|]. field.
Qed.

Lemma clamp_unit_monotone (t u : Q) :
  t <= u -> clamp t 0 1 <= clamp u 0 1.
Proof.
  intros Hle. assert (Hb : 0 <= 1) by discriminate.
  destruct (clamp_cases t 0 1 Hb) as [[? ->] | [(? & ? & ->) | [? ->]]];
    destruct (clamp_cases u 0 1 Hb)
      as [[? ->] | [(? & ? & ->) | [? ->]]]; lra.
Qed.

(** X7.  easeInOut maps every number into [0, 1]: it is 0 up to 0, 1 from
    1 on, one half at one half, and never decreases in between. *)
Theorem easeInOut_shape (t u : Q) :
  (0 <= easeInOut t /\ easeInOut t <= 1) /\
  (t <= 0 -> easeInOut t == 0) /\
  (1 <= t -> easeInOut t == 1) /\
  (t == 1 # 2 -> easeInOut t == 1 # 2) /\
  (t <= u -> easeInOut t <= easeInOut u).
Proof.
  assert (Hb : 0 <= 1) by discriminate.
  destruct (easeInOut_cases t) as (c & Hc & Hc0 & Hc1 & Ht).
  split; [|split; [|split; [|split]]].
  - destruct Ht as [[? ->] | [? ->]]; split; nra.
  - intros Hle.
    destruct (clamp_cases t 0 1 Hb) as [[? E] | [(? & ? & E) | [? E]]];
      rewrite E in Hc; try lra.
    destruct Ht as [[? ->] | [? ->]]; nra.
  - intros Hle.
    destruct (clamp_cases t 0 1 Hb) as [[? E] | [(? & ? & E) | [? E]]];
      rewrite E in Hc; try lra; destruct Ht as [[? ->] | [? ->]]; nra.
  - intros Hhalf.
    destruct (clamp_cases t 0 1 Hb) as [[? E] | [(? & ? & E) | [? E]]];
      rewrite E in Hc; try lra; destruct Ht as [[? ->] | [? ->]]; nra.
  - intros Hle.
    destruct (easeInOut_cases u) as (d & Hd & Hd0 & Hd1 & Hu).
    pose proof (clamp_unit_monotone t u Hle) as Hcd.
    rewrite <- Hc, <- Hd in Hcd.
    destruct Ht as [[? ->] | [? ->]]; destruct Hu as [[? ->] | [? ->]]; nra.
Qed.

Lemma easeInOut_shape_witness :
  (0 <= easeInOut (1 # 4) /\ easeInOut (1 # 4) <= 1) /\
  (1 # 4 <= 0 -> easeInOut (1 # 4) == 0) /\
  (1 <= 1 # 4 -> easeInOut (1 # 4) == 1) /\
  (1 # 4 == 1 # 2 -> easeInOut (1 # 4) == 1 # 2) /\
  (1 # 4 <= 3 # 4 -> easeInOut (1 # 4) <= easeInOut (3 # 4)).
Proof.
  apply (easeInOut_shape (1 # 4) (3 # 4)).
Defined.

(** ** Rounding and remainders *)

Lemma floor_unique (x : Q) (z : Z) :
  inject_Z z <= x -> x < inject_Z (z + 1) -> Qfloor x = z.
Proof.
  intros Hlo Hhi.
  pose proof (Qfloor_le x) as H1. pose proof (Qlt_floor x) as H2.
  assert (Ha : (Qfloor x < z + 1)%Z).
  { rewrite Zlt_Qlt. apply Qle_lt_trans with x; assumption. }
  assert (Hb : (z < Qfloor x + 1)%Z).
  { rewrite Zlt_Qlt. apply Qle_lt_trans with x; assumption. }
  lia.
Qed.

Lemma round_ext (x y : Q) : x == y -> Math.round x = Math.round y.
Proof. intros E. unfold Math.round. now rewrite E. Qed.

(** A fraction of 255 rounds to a channel value. *)
Lemma round_channel (v : Q) :
  0 <= v -> v <= 1 -> (0 <= Math.round (v * 255) <= 255)%Z.
Proof.
  intros H0 H1. unfold Math.round. split.
  - change 0%Z with (Qfloor (1 # 2)). apply Qfloor_resp_le. lra.
  - apply (Z.le_trans _ (Qfloor (255 + (1 # 2)))).
    + apply Qfloor_resp_le. lra.
    + discriminate.
Qed.

Lemma truncate_nonneg (x : Q) : 0 <= x -> truncate x = Qfloor x.
Proof.
  intros H. unfold truncate. apply Qle_bool_iff in H. now rewrite H.
Qed.

(** For a dividend that is not negative the remainder lies in [0, y). *)
Lemma jsRem_nonneg (x y : Q) :
  0 <= x -> 0 < y -> 0 <= jsRem x y /\ jsRem x y < y.
Proof.
  intros Hx Hy. unfold jsRem.
  assert (Hq : 0 <= x / y) by (apply Qle_shift_div_l; lra).
  rewrite (truncate_nonneg _ Hq).
  pose proof (Qfloor_le (x / y)) as H1. pose proof (Qlt_floor (x / y)) as H2.
  rewrite inject_Z_plus in H2. change (inject_Z 1) with 1 in H2.
  assert (E : x / y * y == x) by (field; lra).
  set (n := inject_Z (Qfloor (x / y))) in *. set (q := x / y) in *.
  split; nra.
Qed.

(** ** hslToRgb *)

(** Each component of a sector is [c], [x] or 0. *)
Lemma sector_components (h c x : Q) (P : Q -> Prop) :
  P c -> P x -> P 0 ->
  P (Color.sector h c x).1.1 /\ P (Color.sector h c x).1.2 /\
  P (Color.sector h c x).2.
Proof.
  intros Hc Hx H0. unfold Color.sector.
  destruct (Qlt_bool h 60); [cbn; auto|].
  destruct (Qlt_bool h 120); [cbn; auto|].
  destruct (Qlt_bool h 180); [cbn; auto|].
  destruct (Qlt_bool h 240); [cbn; auto|].
  destruct (Qlt_bool h 300); cbn; auto.
Qed.

(** The chroma [c] and the offset [m] of a lightness in [0, 1]: every
    value between [m] and [c + m] is a fraction. *)
Lemma chroma_bounds (s l : Q) :
  0 <= s -> s <= 1 -> 0 <= l -> l <= 1 ->
  let c := (1 - Qabs (2 * l - 1)) * s in
  0 <= c /\ 0 <= l - c / 2 /\ c + (l - c / 2) <= 1.
Proof.
  intros Hs0 Hs1 Hl0 Hl1 c. unfold c.
  pose proof (Qle_Qabs (2 * l - 1)) as H1.
  pose proof (Qle_Qabs (- (2 * l - 1))) as H2. rewrite Qabs_opp in H2.
  assert (H3 : Qabs (2 * l - 1) <= 1) by (apply Qabs_Qle_condition; lra).
  set (a := Qabs (2 * l - 1)) in *.
  assert (0 <= (1 - a) * s) by nra.
  assert ((1 - a) * s <= 1 - a) by nra.
  unfold Qdiv. change (/ 2) with (1 # 2).
  repeat split; lra.
Qed.

Lemma hslToRgb_channel_bounds (h s l : Q) :
  0 <= h -> 0 <= s -> s <= 100 -> 0 <= l -> l <= 100 ->
  (0 <= Color.r (Color.hslToRgb h s l) <= 255)%Z /\
  (0 <= Color.g (Color.hslToRgb h s l) <= 255)%Z /\
  (0 <= Color.b (Color.hslToRgb h s l) <= 255)%Z.
Proof.
  intros Hh Hs0 Hs1 Hl0 Hl1. unfold Color.hslToRgb. cbv zeta.
  cbn [Color.r Color.g Color.b].
  assert (Hs : 0 <= s / 100 /\ s / 100 <= 1).
  { split; [apply Qle_shift_div_l|apply Qle_shift_div_r]; lra. }
  assert (Hl : 0 <= l / 100 /\ l / 100 <= 1).
  { split; [apply Qle_shift_div_l|apply Qle_shift_div_r]; lra. }
  destruct Hs as [Hs0' Hs1']. destruct Hl as [Hl0' Hl1'].
  pose proof (chroma_bounds (s / 100) (l / 100) Hs0' Hs1' Hl0' Hl1') as Hc.
  cbv zeta in Hc. destruct Hc as (Hc0 & Hm0 & Hm1).
  set (c := (1 - Qabs (2 * (l / 100) - 1)) * (s / 100)) in *.
  set (m := l / 100 - c / 2) in *.
  destruct (jsRem_nonneg h 360 Hh) as [Hr0 Hr1]; [reflexivity|].
  set (hh := jsRem h 360) in *.
  assert (Hx : 0 <= c * (1 - Qabs (jsRem (hh / 60) 2 - 1)) /\
               c * (1 - Qabs (jsRem (hh / 60) 2 - 1)) <= c).
  { destruct (jsRem_nonneg (hh / 60) 2) as [Hp0 Hp1];
      [apply Qle_shift_div_l; lra|reflexivity|].
    assert (Ha : Qabs (jsRem (hh / 60) 2 - 1) <= 1)
      by (apply Qabs_Qle_condition; lra).
    pose proof (Qabs_nonneg (jsRem (hh / 60) 2 - 1)) as Hb.
    set (a := Qabs (jsRem (hh / 60) 2 - 1)) in *. split; nra. }
  set (x := c * (1 - Qabs (jsRem (hh / 60) 2 - 1))) in *.
  destruct Hx as [Hx0 Hx1].
  destruct (sector_components hh c x (fun v => 0 <= v + m /\ v + m <= 1))
    as ([? ?] & [? ?] & [? ?]); [lra..|].
  repeat split; apply round_channel; assumption.
Qed.

(** X9.  For a hue that is not negative and saturation and lightness in
    [0, 100], hslToRgb returns three channel values in [0, 255]. *)
Theorem hslToRgb_channels (h s l : Q) :
  0 <= h -> 0 <= s -> s <= 100 -> 0 <= l -> l <= 100 ->
  (0 <= Color.r (Color.hslToRgb h s l) <= 255)%Z /\
  (0 <= Color.g (Color.hslToRgb h s l) <= 255)%Z /\
  (0 <= Color.b (Color.hslToRgb h s l) <= 255)%Z.
Proof. apply hslToRgb_channel_bounds. Qed.

Lemma hslToRgb_channels_witness :
  (0 <= Color.r (Color.hslToRgb 200 60 50) <= 255)%Z /\
  (0 <= Color.g (Color.hslToRgb 200 60 50) <= 255)%Z /\
  (0 <= Color.b (Color.hslToRgb 200 60 50) <= 255)%Z.
Proof.
  apply (hslToRgb_channels 200 60 50); discriminate.
Defined.

(** X10.  With saturation 0 the three channels are equal, the rounded
    lightness, whatever the hue. *)
Theorem hslToRgb_gray (h s l : Q) :
  s == 0 ->
  Color.hslToRgb h s l =
  {| Color.r := Math.round (l / 100 * 255);
     Color.g := Math.round (l / 100 * 255);
     Color.b := Math.round (l / 100 * 255) |}.
Proof.
  intros Hs. unfold Color.hslToRgb. cbv zeta.
  assert (Hc : (1 - Qabs (2 * (l / 100) - 1)) * (s / 100) == 0)
    by (rewrite Hs; field).
  set (c := (1 - Qabs (2 * (l / 100) - 1)) * (s / 100)) in *.
  set (hh := jsRem h 360).
  assert (Hx : c * (1 - Qabs (jsRem (hh / 60) 2 - 1)) == 0)
    by (rewrite Hc; ring).
  set (x := c * (1 - Qabs (jsRem (hh / 60) 2 - 1))) in *.
  destruct (sector_components hh c x (fun v => v == 0) Hc Hx)
    as (H1 & H2 & H3); [reflexivity|].
  f_equal; apply round_ext; [rewrite H1|rewrite H2|rewrite H3];
    rewrite Hc; field.
Qed.

Lemma hslToRgb_gray_witness :
  Color.hslToRgb (-30) 0 50 =
  {| Color.r := Math.round (50 / 100 * 255);
     Color.g := Math.round (50 / 100 * 255);
     Color.b := Math.round (50 / 100 * 255) |}.
Proof. apply hslToRgb_gray. reflexivity. Defined.

(** A negative hue is not wrapped into the circle: 30 degrees before red
    the green channel leaves the range. *)
Example hslToRgb_negative_hue :
  Color.hslToRgb (-30) 100 50 = {| Color.r := 255; Color.g := -127; Color.b := 0 |}.
Proof. reflexivity. Qed.

(** * Beat lookups *)



(** The loop of getNextBeat started at position [i] of the array. *)
Lemma nextBeatLoop_spec (rest : list Q) (i : nat) (t : Q) :
  match TrailEcho.nextBeatLoop rest i t with
  | Some nb =>
      (i <= TrailEcho.index nb)%nat /\
      rest !! (TrailEcho.index nb - i)%nat = Some (TrailEcho.time nb) /\
      t < TrailEcho.time nb /\
      forall (j : nat) (b : Q),
        (j < TrailEcho.index nb - i)%nat -> rest !! j = Some b -> b <= t
  | None => forall (j : nat) (b : Q), rest !! j = Some b -> b <= t
  end.
Proof.
  revert i. induction rest as [|beat rest IH]; intros i.
  - cbn. intros j b Hj. destruct j; discriminate.
  - cbn [TrailEcho.nextBeatLoop]. destruct (Qgt_bool beat t) eqn:E.
    + apply Qgt_bool_true in E. cbn [TrailEcho.index TrailEcho.time].
      rewrite Nat.sub_diag. repeat split; [lia|exact E|].
      intros j b Hj. lia.
    + apply Qgt_bool_false in E. specialize (IH (S i)).
      destruct (TrailEcho.nextBeatLoop rest (S i) t) as [nb|].
      * destruct IH as (Hi & Hnb & Ht & Hbefore).
        split; [lia|].
        replace (TrailEcho.index nb - i)%nat
          with (S (TrailEcho.index nb - S i)) by lia.
        split; [exact Hnb|]. split; [exact Ht|].
        intros [|j] b Hj Hb.
        -- injection Hb as <-. exact E.
        -- apply (Hbefore j b); [lia|exact Hb].
      * intros [|j] b Hb.
        -- injection Hb as <-. exact E.
        -- exact (IH j b Hb).
Qed.

(** X12.  getNextBeat returns the first beat strictly later than the
    current time, with its position in the array, and [null] exactly when
    no beat is later; the beat it returns is never at or before the
    current time. *)
Theorem next_beat_is_first_later (currentTime : Q) (beats : list Q) :
  match TrailEcho.getNextBeat currentTime (Some beats) with
  | Some nb =>
      beats !! TrailEcho.index nb = Some (TrailEcho.time nb) /\
      currentTime < TrailEcho.time nb /\
      forall (j : nat) (b : Q),
        (j < TrailEcho.index nb)%nat -> beats !! j = Some b ->
        b <= currentTime
  | None => forall (j : nat) (b : Q), beats !! j = Some b -> b <= currentTime
  end.
Proof.
  destruct beats as [|b0 rest].
  - cbn. intros j b Hj. destruct j; discriminate.
  - change (TrailEcho.getNextBeat currentTime (Some (b0 :: rest)))
      with (TrailEcho.nextBeatLoop (b0 :: rest) 0 currentTime).
    pose proof (nextBeatLoop_spec (b0 :: rest) 0 currentTime) as H.
    destruct (TrailEcho.nextBeatLoop (b0 :: rest) 0 currentTime) as [nb|].
    + rewrite Nat.sub_0_r in H. destruct H as (_ & H1 & H2 & H3).
      auto.
    + exact H.
Qed.




(** The early exit is only safe on sorted beats: after a first beat past
    [time] the loop stops, and a closer one further on is not seen. *)
Example nearest_beat_unsorted :
  Mandala.getNearestBeat 2 (Some [9; 2]) = 9.
Proof. reflexivity. Qed.

(** Two beats at the same distance: the earlier one is kept. *)
Example nearest_beat_tie :
  Mandala.getNearestBeat 2 (Some [1; 3]) = 1.
Proof. reflexivity. Qed.

(** * The state machine of the state-machine sketch *)

Section Machine.

Import StateMachine.

Lemma pushBounded_window (size n : nat) (xs : list Q) (x : Q) :
  (0 < size)%nat -> n = length xs ->
  pushBounded size (drop (n - size) xs) x = drop (S n - size) (xs ++ [x]).
Proof.
  intros Hsize ->. unfold pushBounded. cbv zeta.
  rewrite !length_app, length_drop. cbn [length].
  destruct (Nat.le_gt_cases size (length xs)) as [Hfull | Hroom].
  - replace (size <? length xs - (length xs - size) + 1)%nat with true
      by (symmetry; apply Nat.ltb_lt; lia).
    rewrite <- drop_app_le by lia.
    rewrite drop_drop. f_equal. lia.
  - replace (size <? length xs - (length xs - size) + 1)%nat with false
      by (symmetry; apply Nat.ltb_ge; lia).
    replace (length xs - size)%nat with 0%nat by lia.
    replace (S (length xs) - size)%nat with 0%nat by lia.
    reflexivity.
Qed.

Lemma run_snoc (m : Machine) (inputs : list (Q * Q * Q)) (i : Q * Q * Q) :
  run m (inputs ++ [i]) = analyzeAndTransition (run m inputs) i.1.1 i.1.2 i.2.
Proof. unfold run. now rewrite foldl_app. Qed.

Lemma run_histories (count : nat) (inputs : list (Q * Q * Q)) :
  energyHistory (run (startup count) inputs) =
    drop (length inputs - 60) ((fun i => i.1.1) <$> inputs) /\
  onsetHistory (run (startup count) inputs) =
    drop (length inputs - 30) ((fun i => onsetFlag i.1.2) <$> inputs).
Proof.
  induction inputs as [|i inputs IH] using rev_ind; [split; reflexivity|].
  destruct IH as [IHe IHo]. rewrite run_snoc.
  cbn [analyzeAndTransition energyHistory onsetHistory].
  rewrite IHe, IHo, !fmap_app, length_app. cbn [fmap list_fmap length].
  replace (length inputs + 1)%nat with (S (length inputs)) by lia.
  split; apply pushBounded_window;
    solve [cbv; lia | symmetry; apply length_fmap].
Qed.

Lemma foldl_Qplus_bounds (xs : list Q) (a : Q) :
  Forall (fun x => 0 <= x /\ x <= 1) xs ->
  a <= foldl Qplus a xs /\
  foldl Qplus a xs <= a + inject_Z (Z.of_nat (length xs)).
Proof.
  revert a. induction xs as [|x xs IH]; intros a Hall.
  - cbn [foldl length]. change (inject_Z (Z.of_nat 0)) with 0. split; lra.
  - apply Forall_cons in Hall. destruct Hall as [[Hx0 Hx1] Hall].
    cbn [foldl length]. destruct (IH (a + x) Hall) as [H1 H2].
    rewrite Nat2Z.inj_succ. unfold Z.succ. rewrite inject_Z_plus.
    change (inject_Z 1) with 1. split; lra.
Qed.

(** The share of ones in a non-empty list of zeros and ones. *)
Lemma density_bounds (xs : list Q) :
  xs <> [] ->
  Forall (fun x => 0 <= x /\ x <= 1) xs ->
  0 <= total xs / inject_Z (Z.of_nat (length xs)) /\
  total xs / inject_Z (Z.of_nat (length xs)) <= 1.
Proof.
  intros Hne Hall. destruct (foldl_Qplus_bounds xs 0 Hall) as [H1 H2].
  fold (total xs) in H1, H2.
  assert (Hlen : 0 < inject_Z (Z.of_nat (length xs))).
  { change 0 with (inject_Z 0). rewrite <- Zlt_Qlt.
    destruct xs; [congruence|]. cbn [length]. lia. }
  split; [apply Qle_shift_div_l|apply Qle_shift_div_r]; lra.
Qed.

Lemma onsetFlag_bounds (onset : Q) :
  0 <= onsetFlag onset /\ onsetFlag onset <= 1.
Proof.
  unfold onsetFlag. destruct (Qgt_bool onset (1 # 2)); split; discriminate.
Qed.

(** What the chain can do from each state. *)
Lemma transition_cases (cs : State) (sd : bool) (acc dens trend : Q) :
  let ns := transition cs sd acc dens trend in
  (ns = BREAKDOWN -> cs = BREAKDOWN \/ (sd = true /\ cs = INTENSE)) /\
  (sd = true -> cs = INTENSE -> ns = BREAKDOWN) /\
  (cs = BREAKDOWN -> ns <> INTENSE) /\
  (cs = BREAKDOWN -> ns = BUILDING -> 4 # 10 < acc) /\
  (cs = AMBIENT -> ns = INTENSE -> 6 # 10 < acc /\ 4 # 10 < dens).
Proof.
  unfold transition. cbv zeta.
  destruct (Qgt_bool acc (4 # 10)) eqn:E4;
    destruct (Qlt_bool acc (2 # 10)) eqn:E2;
    destruct (Qgt_bool acc (6 # 10)) eqn:E6;
    destruct (Qgt_bool acc (3 # 10)) eqn:E3;
    destruct (Qgt_bool acc (5 # 10)) eqn:E5;
    destruct (Qlt_bool dens (2 # 10)) eqn:D2;
    destruct (Qgt_bool dens (4 # 10)) eqn:D4;
    destruct (Qgt_bool trend (5 # 100)) eqn:T1;
    destruct (Qlt_bool trend (- (5 # 100))) eqn:T2;
    destruct cs, sd; cbn;
    repeat split; intros; try discriminate; try congruence; auto;
    repeat match goal with
           | H : Qgt_bool _ _ = true |- _ => apply Qgt_bool_true in H
           | H : Qgt_bool _ _ = false |- _ => apply Qgt_bool_false in H
           | H : Qlt_bool _ _ = true |- _ => apply Qlt_bool_true in H
           | H : Qlt_bool _ _ = false |- _ => apply Qlt_bool_false in H
           end; lra.
Qed.

Lemma isState_true (a b : State) : isState a b = true <-> a = b.
Proof. destruct a, b; cbn; split; intros; congruence. Qed.

Lemma analyzeAndTransition_state (m : Machine) (rms onset bass : Q) :
  exists acc dens trend,
    currentState (analyzeAndTransition m rms onset bass) =
    transition (currentState m)
      (Qgt_bool (lastEnergy m) (1 # 2) && Qlt_bool rms (15 # 100))
      acc dens trend /\
    acc = energyAccumulator (analyzeAndTransition m rms onset bass).
Proof. eexists _, _, _. split; reflexivity. Qed.

End Machine.

Section MachineProperties.

Import StateMachine.

(** X14.  Started from the script's initial variables, after any run of
    calls the energy history holds the last 60 [rms] values passed and
    the onset history the last 30 onset flags, oldest first. *)
Theorem histories_are_sliding_windows
    (count : nat) (inputs : list (Q * Q * Q)) :
  let m := run (startup count) inputs in
  energyHistory m =
    drop (length inputs - 60) ((fun i => i.1.1) <$> inputs) /\
  onsetHistory m =
    drop (length inputs - 30) ((fun i => onsetFlag i.1.2) <$> inputs) /\
  length (energyHistory m) = Nat.min (length inputs) 60 /\
  length (onsetHistory m) = Nat.min (length inputs) 30.
Proof.
  intros m. destruct (run_histories count inputs) as [He Ho].
  fold m in He, Ho. rewrite He, Ho, !length_drop, !length_fmap.
  repeat split; lia.
Qed.

(** X15.  BREAKDOWN is entered only from INTENSE, and only on a sudden
    drop (the previous [rms] above 0.5 and the present one below 0.15); in
    INTENSE such a drop always leads to BREAKDOWN, whatever the other
    measures say. *)
Theorem breakdown_entry (m : Machine) (rms onset bass : Q) :
  let m' := analyzeAndTransition m rms onset bass in
  (currentState m' = BREAKDOWN -> currentState m <> BREAKDOWN ->
   currentState m = INTENSE /\ 1 # 2 < lastEnergy m /\ rms < 15 # 100) /\
  (currentState m = INTENSE -> 1 # 2 < lastEnergy m -> rms < 15 # 100 ->
   currentState m' = BREAKDOWN).
Proof.
  intros m'.
  destruct (analyzeAndTransition_state m rms onset bass)
    as (acc & dens & trend & Hst & _).
  fold m' in Hst.
  destruct (transition_cases (currentState m)
              (Qgt_bool (lastEnergy m) (1 # 2) && Qlt_bool rms (15 # 100))
              acc dens trend) as (Hin & Hdrop & _).
  cbv zeta in Hin, Hdrop. rewrite <- Hst in Hin, Hdrop. split.
  - intros Hb Hnot. destruct (Hin Hb) as [? | [Hsd Hcs]]; [contradiction|].
    apply andb_true_iff in Hsd. destruct Hsd as [H1 H2].
    apply Qgt_bool_true in H1. apply Qlt_bool_true in H2. auto.
  - intros Hcs H1 H2. apply Hdrop; [|exact Hcs].
    apply andb_true_iff. split.
    + now apply Qgt_bool_true.
    + now apply Qlt_bool_true.
Qed.

Lemma breakdown_entry_witness :
  let m := {| currentState := INTENSE; targetState := INTENSE;
              energyAccumulator := 7 # 10; energyHistory := [8 # 10];
              onsetHistory := [1]; lastEnergy := 8 # 10; particles := 200 |} in
  currentState (analyzeAndTransition m (1 # 10) 0 0) = BREAKDOWN.
Proof.
  intros m.
  apply (proj2 (breakdown_entry m (1 # 10) 0 0)); reflexivity.
Defined.

(** X16.  BREAKDOWN is never followed directly by INTENSE, and it is
    left for BUILDING only once the energy accumulator exceeds 0.4. *)
Theorem breakdown_exit (m : Machine) (rms onset bass : Q) :
  let m' := analyzeAndTransition m rms onset bass in
  currentState m = BREAKDOWN ->
  currentState m' <> INTENSE /\
  (currentState m' = BUILDING -> 4 # 10 < energyAccumulator m').
Proof.
  intros m' Hcs.
  destruct (analyzeAndTransition_state m rms onset bass)
    as (acc & dens & trend & Hst & Hacc).
  fold m' in Hst, Hacc.
  destruct (transition_cases (currentState m)
              (Qgt_bool (lastEnergy m) (1 # 2) && Qlt_bool rms (15 # 100))
              acc dens trend) as (_ & _ & Hno & Hbuild & _).
  cbv zeta in Hno, Hbuild. rewrite <- Hst in Hno, Hbuild.
  split; [now apply Hno|].
  intros Hb. rewrite <- Hacc. now apply Hbuild.
Qed.

Lemma breakdown_exit_witness :
  let m := {| currentState := BREAKDOWN; targetState := BREAKDOWN;
              energyAccumulator := 1; energyHistory := [1];
              onsetHistory := [1]; lastEnergy := 1; particles := 10 |} in
  currentState (analyzeAndTransition m 1 1 0) <> INTENSE /\
  (currentState (analyzeAndTransition m 1 1 0) = BUILDING ->
   4 # 10 < energyAccumulator (analyzeAndTransition m 1 1 0)).
Proof.
  intros m. apply (breakdown_exit m 1 1 0). reflexivity.
Defined.

(** X17.  Started from the script's initial variables and fed [rms]
    values in [0, 1], the energy accumulator stays within [0, 1.5]. *)
Theorem accumulator_bounded (count : nat) (inputs : list (Q * Q * Q)) :
  Forall (fun i => 0 <= i.1.1 /\ i.1.1 <= 1) inputs ->
  0 <= energyAccumulator (run (startup count) inputs) /\
  energyAccumulator (run (startup count) inputs) <= 3 # 2.
Proof.
  induction inputs as [|i inputs IH] using rev_ind; intros Hall.
  - cbn. split; discriminate.
  - apply Forall_app in Hall. destruct Hall as [Hall Hi].
    apply Forall_cons in Hi. destruct Hi as [[Hr0 Hr1] _].
    destruct (IH Hall) as [Ha0 Ha1].
    destruct (run_histories count (inputs ++ [i])) as [_ Ho].
    rewrite run_snoc in *.
    set (m := run (startup count) inputs) in *.
    set (m' := analyzeAndTransition m i.1.1 i.1.2 i.2) in *.
    assert (Hd : 0 <= total (onsetHistory m') /
                      inject_Z (Z.of_nat (length (onsetHistory m'))) /\
                 total (onsetHistory m') /
                      inject_Z (Z.of_nat (length (onsetHistory m'))) <= 1).
    { apply density_bounds.
      - rewrite Ho. intros Hnil. apply (f_equal length) in Hnil.
        rewrite length_drop, length_fmap, length_app in Hnil.
        cbn [length] in Hnil. lia.
      - rewrite Ho. apply Forall_drop, Forall_fmap, Forall_forall.
        intros x _. apply onsetFlag_bounds. }
    destruct Hd as [Hd0 Hd1].
    change (energyAccumulator m') with
      (lerp (energyAccumulator m)
            (i.1.1 + total (onsetHistory m') /
                       inject_Z (Z.of_nat (length (onsetHistory m'))) * (1 # 2))
            (5 # 100)).
    set (d := total (onsetHistory m') /
              inject_Z (Z.of_nat (length (onsetHistory m')))) in *.
    unfold lerp. split; lra.
Qed.

Lemma accumulator_bounded_witness :
  0 <= energyAccumulator (run (startup 30) [(1, 1, 0); (1 # 2, 0, 0)]) /\
  energyAccumulator (run (startup 30) [(1, 1, 0); (1 # 2, 0, 0)]) <= 3 # 2.
Proof.
  apply (accumulator_bounded 30 [(1, 1, 0); (1 # 2, 0, 0)]).
  repeat constructor; discriminate.
Defined.

End MachineProperties.

(** * Grid index of the reaction-diffusion sketch *)

(** X18.  On a grid of positive width and height, for coordinates no
    further than one grid width (height) below zero, idx wraps both
    coordinates round the grid and returns a cell index inside the grid
    arrays; so do the nine reads of the laplacian at every cell. *)
Theorem grid_index_wraps (gridWidth gridHeight x y : Z) :
  (0 < gridWidth)%Z -> (0 < gridHeight)%Z ->
  (- gridWidth <= x)%Z -> (- gridHeight <= y)%Z ->
  ReactionDiffusion.idx gridWidth gridHeight x y =
    ((y mod gridHeight) * gridWidth + x mod gridWidth)%Z /\
  (0 <= ReactionDiffusion.idx gridWidth gridHeight x y
     < gridWidth * gridHeight)%Z.
Proof.
  intros HW HH Hx Hy. unfold ReactionDiffusion.idx. cbv zeta.
  rewrite (Z.rem_mod_nonneg (x + gridWidth) gridWidth) by lia.
  rewrite (Z.rem_mod_nonneg (y + gridHeight) gridHeight) by lia.
  replace (x + gridWidth)%Z with (x + 1 * gridWidth)%Z by lia.
  replace (y + gridHeight)%Z with (y + 1 * gridHeight)%Z by lia.
  rewrite !Z.mod_add by lia.
  split; [reflexivity|].
  pose proof (Z.mod_pos_bound x gridWidth HW).
  pose proof (Z.mod_pos_bound y gridHeight HH).
  nia.
Qed.

Lemma grid_index_wraps_witness :
  ReactionDiffusion.idx 4 3 (-1) 3 = ((3 mod 3) * 4 + (-1) mod 4)%Z /\
  (0 <= ReactionDiffusion.idx 4 3 (-1) 3 < 4 * 3)%Z.
Proof.
  apply (grid_index_wraps 4 3 (-1) 3); lia.
Defined.

(** * formatTime *)

Lemma pad_two_digits_check :
  forallb (fun k : nat =>
             String.eqb (padStartZero 2 (pretty (Z.of_nat k)))
                        (twoDigits (Z.of_nat k)))
          (seq 0 60) = true.
Proof. vm_compute. reflexivity. Qed.

Lemma pad_two_digits (r : Z) :
  (0 <= r < 60)%Z -> padStartZero 2 (pretty r) = twoDigits r.
Proof.
  intros Hr. pose proof pad_two_digits_check as H.
  rewrite forallb_forall in H.
  specialize (H (Z.to_nat r)).
  rewrite Z2Nat.id in H by lia.
  apply String.eqb_eq, H, in_seq. lia.
Qed.

(** The whole minutes and the remaining whole seconds of a time that is
    not negative. *)
Lemma minutes_and_seconds (seconds : Q) :
  0 <= seconds ->
  Math.floor (seconds / 60) = (Qfloor seconds / 60)%Z /\
  Math.floor (jsRem seconds 60) = (Qfloor seconds mod 60)%Z.
Proof.
  intros Hs. unfold Math.floor.
  pose proof (Qfloor_le seconds) as Hlo.
  pose proof (Qlt_floor seconds) as Hhi.
  rewrite inject_Z_plus in Hhi. change (inject_Z 1) with 1 in Hhi.
  set (n := Qfloor seconds) in *.
  assert (Hn : (0 <= n)%Z).
  { unfold n. change 0%Z with (Qfloor 0). now apply Qfloor_resp_le. }
  pose proof (Z.div_mod n 60 ltac:(lia)) as Hdm.
  pose proof (Z.mod_pos_bound n 60 ltac:(lia)) as Hr.
  set (q := (n / 60)%Z) in *. set (r := (n mod 60)%Z) in *.
  assert (Hnq : inject_Z n == 60 * inject_Z q + inject_Z r).
  { rewrite Hdm, inject_Z_plus, inject_Z_mult. reflexivity. }
  assert (Hr0 : 0 <= inject_Z r).
  { change 0 with (inject_Z 0). rewrite <- Zle_Qle. lia. }
  assert (Hr1 : inject_Z r + 1 <= 60).
  { change 1 with (inject_Z 1). change 60 with (inject_Z 60).
    rewrite <- inject_Z_plus, <- Zle_Qle. lia. }
  assert (Hmin : Qfloor (seconds / 60) = q).
  { apply floor_unique.
    - apply Qle_shift_div_l; lra.
    - rewrite inject_Z_plus. change (inject_Z 1) with 1.
      apply Qlt_shift_div_r; lra. }
  split; [exact Hmin|].
  unfold jsRem. rewrite truncate_nonneg by (apply Qle_shift_div_l; lra).
  rewrite Hmin. apply floor_unique.
  - lra.
  - rewrite inject_Z_plus. change (inject_Z 1) with 1. lra.
Qed.

(** X19.  For a time that is not negative and no more than
    [Number.MAX_SAFE_INTEGER] seconds, so that the minutes are an integer
    printed digit for digit, formatTime prints the whole minutes, a colon
    and the remaining whole seconds as exactly two digits. *)
Theorem formatTime_minutes_seconds (seconds : Q) :
  0 <= seconds -> seconds <= 9007199254740991 ->
  formatTime seconds =
  pretty (Qfloor seconds / 60)%Z +:+ ":" +:+ twoDigits (Qfloor seconds mod 60).
Proof.
  intros Hs _. unfold formatTime. cbv zeta.
  destruct (minutes_and_seconds seconds Hs) as [-> ->].
  rewrite pad_two_digits; [reflexivity|].
  apply Z.mod_pos_bound. lia.
Qed.

Lemma formatTime_witness :
  formatTime (6151 # 100) =
  pretty (Qfloor (6151 # 100) / 60)%Z +:+ ":" +:+
  twoDigits (Qfloor (6151 # 100) mod 60).
Proof. apply formatTime_minutes_seconds; discriminate. Defined.

Example formatTime_61_5 : formatTime (615 # 10) = "1:01"%string.
Proof. vm_compute. reflexivity. Qed.

(** A negative time is not clamped: both fields go negative. *)
Example formatTime_negative : formatTime (- (1 # 2)) = "-1:-1"%string.
Proof. vm_compute. reflexivity. Qed.

(** * Further properties of the resolver *)

Section SearchRounds.

Variable l : list Frame.
Variable t : Q.

(** A window narrower than [2 ^ fuel] is searched within [fuel] rounds. *)
Lemma searchLoop_rounds (fuel low high : nat) :
  (low <= high)%nat -> (high < length l)%nat ->
  (high - low < 2 ^ fuel)%nat ->
  exists idx, searchLoop fuel l t low high = Done idx.
Proof.
  revert low high. induction fuel as [|fuel IH]; intros low high Hlh Hlen Hw.
  - cbn in Hw. assert (low = high) as -> by lia.
    exists high. cbn [searchLoop]. now rewrite Nat.ltb_irrefl.
  - rewrite searchLoop_unfold. destruct (low <? high)%nat eqn:Hlt; [|eauto].
    apply Nat.ltb_lt in Hlt. cbv zeta.
    rewrite Nat.pow_succ_r' in Hw.
    set (mid := ((low + high + 1) / 2)%nat).
    assert (Hmid : (low < mid <= high)%nat /\ (2 * mid <= low + high + 1)%nat
                   /\ (low + high <= 2 * mid)%nat).
    { unfold mid. pose proof (Nat.div_mod_eq (low + high + 1) 2) as E.
      pose proof (Nat.mod_upper_bound (low + high + 1) 2 ltac:(lia)).
      lia. }
    destruct (lookup_lt_is_Some_2 l mid) as [f Hf]; [lia|].
    rewrite Hf. cbn [deref bind].
    destruct (Qle_bool (time f) t); apply IH; lia.
Qed.

(** More rounds than needed change nothing. *)
Lemma searchLoop_more_fuel (fuel fuel' low high idx : nat) :
  searchLoop fuel l t low high = Done idx -> (fuel <= fuel')%nat ->
  searchLoop fuel' l t low high = Done idx.
Proof.
  revert fuel' low high.
  induction fuel as [|fuel IH]; intros fuel' low high Hrun Hle.
  - cbn [searchLoop] in Hrun.
    destruct (low <? high)%nat eqn:Hlt; [discriminate|].
    destruct fuel'; cbn [searchLoop]; now rewrite Hlt.
  - destruct fuel' as [|fuel']; [lia|].
    rewrite searchLoop_unfold in *.
    destruct (low <? high)%nat; [|exact Hrun]. cbv zeta in *.
    destruct (l !! ((low + high + 1) / 2)%nat) as [f|]; [|discriminate].
    cbn [deref bind] in *.
    destruct (Qle_bool (time f) t); apply IH; solve [assumption | lia].
Qed.

End SearchRounds.

(** X20.  The binary search of getFrameIndex needs no more than
    ceil(log2 n) rounds on an array of n frames: run with that many
    rounds it returns the index getFrameIndex returns. *)
Theorem frame_index_logarithmic (l : list Frame) (t : Q) :
  l <> [] ->
  exists idx,
    searchLoop (Nat.log2_up (length l)) l t 0 (length l - 1) = Done idx /\
    getFrameIndex (Some l) t = Done idx.
Proof.
  intros Hne.
  assert (Hlen : (0 < length l)%nat) by (destruct l; [congruence|cbn; lia]).
  destruct (searchLoop_rounds l t (Nat.log2_up (length l)) 0 (length l - 1))
    as [idx Hidx]; [lia|lia| |].
  { destruct (Nat.eq_dec (length l) 1%nat) as [-> | Hn]; [cbn; lia|].
    pose proof (Nat.log2_up_spec (length l) ltac:(lia)). lia. }
  exists idx. split; [exact Hidx|].
  destruct l as [|f0 l']; [congruence|].
  change (getFrameIndex (Some (f0 :: l')) t)
    with (searchLoop (length (f0 :: l')) (f0 :: l') t 0
                     (length (f0 :: l') - 1)).
  apply (searchLoop_more_fuel _ _ _ _ _ _ _ Hidx).
  apply Nat.log2_up_le_lin. lia.
Qed.

Lemma frame_index_logarithmic_witness :
  exists idx,
    searchLoop (Nat.log2_up 5)
      [sample 0 0; sample 1 1; sample 2 0; sample 3 1; sample 4 0]
      (5 # 2) 0 (5 - 1) = Done idx /\
    getFrameIndex
      (Some [sample 0 0; sample 1 1; sample 2 0; sample 3 1; sample 4 0])
      (5 # 2) = Done idx.
Proof.
  apply (frame_index_logarithmic
           [sample 0 0; sample 1 1; sample 2 0; sample 3 1; sample 4 0]
           (5 # 2)).
  discriminate.
Defined.

(** X21.  On any non-empty array getFrameIndex returns an index inside
    it.  On an array sorted ascending by time every frame after that
    index is later than [t], and when the first frame is not later than
    [t] the frame at the index is not later than [t] either: it is the
    latest frame at or before [t]. *)
Theorem frame_index_is_latest (l : list Frame) (t : Q) :
  l <> [] ->
  exists (idx : nat) (f : Frame),
    getFrameIndex (Some l) t = Done idx /\
    l !! idx = Some f /\
    (ascending l = true ->
     (forall (j : nat) (g : Frame),
        (idx < j)%nat -> l !! j = Some g -> t < time g) /\
     (forall f0, l !! 0%nat = Some f0 -> time f0 <= t -> time f <= t)).
Proof.
  intros Hne.
  destruct (getFrameAtTime_cases l t Hne)
    as (idx & f & Hidx & Hf & Hlo & Hhi & _).
  exists idx, f. split; [exact Hidx|]. split; [exact Hf|].
  intros Hs. split; [exact (Hhi Hs)|].
  intros f0 H0 Hle. destruct Hlo as [-> | Hlo]; [|exact Hlo].
  assert (f = f0) as -> by congruence. exact Hle.
Qed.

Lemma frame_index_is_latest_witness :
  exists (idx : nat) (f : Frame),
    getFrameIndex (Some [sample 0 0; sample 1 1; sample 2 0]) (3 # 2) =
      Done idx /\
    [sample 0 0; sample 1 1; sample 2 0] !! idx = Some f /\
    (ascending [sample 0 0; sample 1 1; sample 2 0] = true ->
     (forall (j : nat) (g : Frame),
        (idx < j)%nat ->
        [sample 0 0; sample 1 1; sample 2 0] !! j = Some g ->
        3 # 2 < time g) /\
     (forall f0,
        [sample 0 0; sample 1 1; sample 2 0] !! 0%nat = Some f0 ->
        time f0 <= 3 # 2 -> time f <= 3 # 2)).
Proof.
  apply (frame_index_is_latest [sample 0 0; sample 1 1; sample 2 0] (3 # 2)).
  discriminate.
Defined.

(** X22.  On an array sorted ascending by time the located index never
    moves back when the query time moves forward. *)
Theorem frame_index_monotone (l : list Frame) (t t' : Q) (i i' : nat) :
  ascending l = true ->
  t <= t' ->
  getFrameIndex (Some l) t = Done i ->
  getFrameIndex (Some l) t' = Done i' ->
  (i <= i')%nat.
Proof.
  intros Hs Hle Hi Hi'.
  destruct l as [|f0 l'] eqn:El.
  { cbn in Hi, Hi'. injection Hi as <-. injection Hi' as <-. lia. }
  rewrite <- El in *.
  assert (Hne : l <> []) by (rewrite El; discriminate).
  destruct (getFrameAtTime_cases l t Hne) as (j & f & Hj & Hf & Hlo & _).
  destruct (getFrameAtTime_cases l t' Hne) as (j' & f' & Hj' & _ & _ & Hhi & _).
  assert (j = i) as -> by congruence.
  assert (j' = i') as -> by congruence.
  destruct (Nat.le_gt_cases i i') as [Hok | Hback]; [exact Hok|].
  destruct Hlo as [-> | Hlo]; [lia|].
  pose proof (Hhi Hs i f Hback Hf). lra.
Qed.

Lemma frame_index_monotone_witness :
  let l := [sample 0 0; sample 1 1; sample 2 0] in
  getFrameIndex (Some l) (3 # 2) = Done 1%nat /\
  getFrameIndex (Some l) (5 # 2) = Done 2%nat /\
  (1 <= 2)%nat.
Proof.
  split; [reflexivity|]. split; [reflexivity|].
  apply (frame_index_monotone [sample 0 0; sample 1 1; sample 2 0]
                              (3 # 2) (5 # 2) 1 2); try reflexivity.
  discriminate.
Defined.

(** X23.  On an array sorted ascending by time, for [t] strictly between
    the times of [frames[i]] and [frames[i+1]] (vectors of equal
    lengths), the snapshot has [time = t] and every feature is
    [a + (b - a) * (t - t_i) / (t_next - t_i)], [a] and [b] being that
    feature in the two frames. *)
Theorem between_samples_is_linear
    (l : list Frame) (i : nat) (f g : Frame) (t : Q) :
  ascending l = true ->
  l !! i = Some f ->
  l !! S i = Some g ->
  time f < t -> t < time g ->
  sameShape f g ->
  exists s : Frame,
    getFrameAtTime (Some l) t = Done (Snap s) /\
    time s = t /\
    lerpOf f g ((t - time f) / (time g - time f)) s.
Proof.
  intros Hs Hi Hj Hft Htg Hshape.
  rewrite (getFrameAtTime_at l t i f); [| |exact Hi].
  2:{ apply located_index with f; [exact Hs|exact Hi|lra|].
      intros g' Hg'. congruence. }
  assert (Hlast : (length l - 1 <=? i)%nat = false).
  { apply Nat.leb_gt. apply lookup_lt_Some in Hj. lia. }
  rewrite Hlast.
  destruct (Qeq_bool (time f) t) eqn:E.
  { apply Qeq_bool_iff in E. lra. }
  replace (i + 1)%nat with (S i) by lia. rewrite Hj.
  destruct (interpolate_snap f g t) as (s & -> & Htime & Hlerp);
    [lra|exact Hshape|].
  exists s. auto.
Qed.

Lemma between_samples_is_linear_witness :
  exists s : Frame,
    getFrameAtTime (Some [sample 0 0; sample 1 1]) (1 # 4) = Done (Snap s) /\
    time s = 1 # 4 /\
    lerpOf (sample 0 0) (sample 1 1) (((1 # 4) - 0) / (1 - 0)) s.
Proof.
  apply (between_samples_is_linear [sample 0 0; sample 1 1] 0%nat);
    try reflexivity.
  split; reflexivity.
Defined.

(** * Further properties of the smoothers *)

(** A smoother whose held value lies in a range keeps its outputs in that
    range as long as the targets do. *)
Lemma feed_within (s : Smoother) (targets : list Q) (lo hi : Q) :
  0 <= factor s -> factor s <= 1 ->
  (forall p, value s = Some p -> lo <= p /\ p <= hi) ->
  Forall (fun x => lo <= x /\ x <= hi) targets ->
  Forall (fun y => lo <= y /\ y <= hi) (feed s targets).
Proof.
  intros Hr0 Hr1. revert s Hr0 Hr1.
  induction targets as [|x xs IH]; intros s Hr0 Hr1 Hheld Hall.
  - constructor.
  - apply Forall_cons in Hall. destruct Hall as [Hx Hall].
    assert (Hout : lo <= (smooth s x).1 /\ (smooth s x).1 <= hi).
    { unfold smooth. cbn [fst]. destruct (value s) as [p|]; [|exact Hx].
      destruct (Hheld p eq_refl) as [Hp0 Hp1].
      pose proof (lerp_between p x (factor s) Hr0 Hr1) as Hb.
      unfold between in Hb. lra. }
    cbn [feed]. apply Forall_cons. split; [exact Hout|].
    apply IH; [exact Hr0|exact Hr1| |exact Hall].
    intros p Hp. rewrite smooth_value in Hp. injection Hp as <-. exact Hout.
Qed.

(** With factor 0 the rounded [lerp] returns its starting value. *)
Lemma rounded_lerp_zero (rnd : Q -> Q) (a b : Q) :
  rounding rnd -> representable rnd a -> Rounded.lerp rnd a b 0 == a.
Proof.
  intros Hrnd Ha. unfold Rounded.lerp.
  assert (E : rnd (rnd (b - a) * 0) == 0).
  { rewrite <- (rnd_zero rnd Hrnd) at 2. apply (rnd_compat rnd Hrnd). ring. }
  assert (E' : a + rnd (rnd (b - a) * 0) == a) by (rewrite E; ring).
  rewrite (rnd_compat rnd Hrnd _ _ E'). exact Ha.
Qed.

(** With factor 0 every output is the value held. *)
Lemma rounded_feed_frozen (rnd : Q -> Q) (s : Smoother) (targets : list Q)
    (p : Q) :
  rounding rnd -> factor s = 0 -> value s = Some p -> representable rnd p ->
  Forall (fun y => y == p) (Rounded.feed rnd s targets).
Proof.
  intros Hrnd. revert s p.
  induction targets as [|x xs IH]; intros s p Hf Hv Hp.
  - constructor.
  - cbn [Rounded.feed].
    assert (Hout : (Rounded.smooth rnd s x).1 == p).
    { unfold Rounded.smooth. cbn [fst]. rewrite Hv, Hf.
      now apply rounded_lerp_zero. }
    apply Forall_cons. split; [exact Hout|].
    apply Forall_impl with (fun y => y == (Rounded.smooth rnd s x).1).
    + apply IH; [exact Hf|reflexivity|].
      unfold Rounded.smooth. cbn [fst]. rewrite Hv.
      unfold Rounded.lerp. exact (rnd_representable rnd Hrnd _).
    + intros y Hy. cbv beta in Hy. rewrite Hy. exact Hout.
Qed.

(** X25.  The lower end of the responsiveness scale: an explicit factor
    0 is kept, not replaced by the default 0.1, and the smoother made by
    createSmoother(0) returns its first target on every call (targets
    numbers in range). *)
Theorem smoother_factor_zero_freezes
    (rnd : Q -> Q) (targets : list Q) (n : nat) (x : Q) :
  rounding rnd -> Forall (number rnd) targets ->
  targets !! 0%nat = Some x -> (n < length targets)%nat ->
  factor (createSmoother (Some 0)) = 0 /\
  exists y, Rounded.feed rnd (createSmoother (Some 0)) targets !! n = Some y /\
            y == x.
Proof.
  intros Hrnd Hnum Hx Hn. split; [reflexivity|].
  assert (Hrep : representable rnd x)
    by exact (proj1 (proj1 (Forall_lookup _ _) Hnum 0%nat x Hx)).
  destruct (lookup_lt_is_Some_2
              (Rounded.feed rnd (createSmoother (Some 0)) targets) n)
    as [y Hy].
  { now rewrite rounded_feed_length. }
  exists y. split; [exact Hy|].
  destruct targets as [|x0 xs]; [discriminate|].
  injection Hx as ->. destruct n as [|n].
  - injection Hy as <-. reflexivity.
  - change (Rounded.feed rnd (Rounded.smooth rnd (createSmoother (Some 0)) x).2
              xs !! n = Some y) in Hy.
    pose proof (rounded_feed_frozen rnd
                  (Rounded.smooth rnd (createSmoother (Some 0)) x).2 xs x
                  Hrnd eq_refl eq_refl Hrep) as Hall.
    rewrite Forall_lookup in Hall. exact (Hall n y Hy).
Qed.

Lemma smoother_factor_zero_freezes_witness :
  factor (createSmoother (Some 0)) = 0 /\
  exists y,
    Rounded.feed toEighths (createSmoother (Some 0)) [4; 8; 0] !! 2%nat
      = Some y /\
    y == 4.
Proof.
  apply (smoother_factor_zero_freezes toEighths [4; 8; 0] 2 4).
  - exact rounding_toEighths.
  - given_numbers.
  - reflexivity.
  - cbn. lia.
Defined.

(** A round of the loop adds its key to the result, and to the table
    unless the key is an inherited name. *)
Lemma smoothKey_keys (F : gmap string Q) (res res' : gmap string Value)
    (sm sm' : gmap string Smoother) (k : string) (x : Q) :
  smoothKey F res sm k x = (Done res', sm') ->
  dom res' = {[ k ]} ∪ dom res /\
  dom sm' = dom sm ∪ (if inherited k then ∅ else {[ k ]}).
Proof.
  unfold smoothKey. destruct (get sm k) as [s| |] eqn:Hget.
  - intros [= <- <-]. rewrite !dom_insert_L.
    split; [reflexivity|].
    assert (k ∈ dom sm).
    { apply elem_of_dom. unfold get in Hget.
      destruct (sm !! k); [eauto|]. destruct (inherited k); discriminate. }
    destruct (inherited k); set_solver.
  - unfold callInherited. destruct (throwsWhenCalled k); [discriminate|].
    cbn [bind]. intros [= <- <-]. rewrite dom_insert_L.
    split; [reflexivity|].
    unfold get in Hget. destruct (sm !! k); [discriminate|].
    destruct (inherited k); [set_solver|discriminate].
  - apply get_undefined in Hget. destruct Hget as [_ ->].
    destruct (factorFor F k); [|discriminate].
    intros [= <- <-]. rewrite !dom_insert_L.
    split; [reflexivity|set_solver].
Qed.

Lemma loop_keys (F : gmap string Q) (entries : list (string * Q))
    (res result : gmap string Value) (sm sm' : gmap string Smoother) :
  smoothLoop F entries res sm = (Done result, sm') ->
  dom result = dom res ∪ list_to_set entries.*1 /\
  dom sm' =
    dom sm ∪ list_to_set (filter (fun key => inherited key = false) entries.*1).
Proof.
  revert res sm. induction entries as [|[k x] rest IH]; intros res sm Hrun.
  - cbn in Hrun. injection Hrun as Hsm Hres. subst result sm'. cbn. split; set_solver.
  - cbn [smoothLoop] in Hrun.
    destruct (smoothKey F res sm k x) as [[res1| |] sm1] eqn:Hstep;
      try discriminate.
    destruct (smoothKey_keys F res res1 sm sm1 k x Hstep) as [Hres Hsm].
    destruct (IH res1 sm1 Hrun) as [-> ->]. rewrite Hres, Hsm.
    rewrite fmap_cons. cbn [fst]. rewrite filter_cons.
    destruct (decide (inherited k = false)) as [E | E].
    + rewrite E. cbn [list_to_set]. split; set_solver.
    + apply not_false_is_true in E. rewrite E. cbn [list_to_set].
      split; set_solver.
Qed.

(** X26.  A call of the aggregate smoother on an object that carries no
    inherited member that throws when called returns an object with
    exactly the keys of its argument.  Its table of smoothers gains
    exactly those of the keys that are not names inherited from
    [Object.prototype], and smoothers are never dropped. *)
Theorem object_smoother_keys (os : ObjectSmoother) (obj : list (string * Q)) :
  Forall (fun entry => throwsWhenCalled entry.1 = false) obj ->
  exists result : gmap string Value,
    (smoothObject os obj).1 = Done result /\
    dom result = list_to_set obj.*1 /\
    dom (smoothers (smoothObject os obj).2) =
      dom (smoothers os) ∪
      list_to_set (filter (fun key => inherited key = false) obj.*1).
Proof.
  intros Hok.
  destruct (loop_returns (factors os) obj ∅ (smoothers os) Hok)
    as (result & sm' & Hrun).
  exists result. unfold smoothObject. cbv zeta. rewrite Hrun.
  cbn [fst snd smoothers].
  destruct (loop_keys (factors os) obj ∅ result (smoothers os) sm' Hrun)
    as [Hres Hsm].
  split; [reflexivity|]. split; [|exact Hsm].
  rewrite Hres. set_solver.
Qed.

Lemma object_smoother_keys_witness :
  exists result : gmap string Value,
    (smoothObject (createObjectSmoother None)
                  [("rms"%string, 1); ("valueOf"%string, 2)]).1 = Done result /\
    dom result = {[ "rms"%string; "valueOf"%string ]} /\
    dom (smoothers (smoothObject (createObjectSmoother None)
                      [("rms"%string, 1); ("valueOf"%string, 2)]).2) =
      {[ "rms"%string ]}.
Proof.
  destruct (object_smoother_keys (createObjectSmoother None)
              [("rms"%string, 1); ("valueOf"%string, 2)])
    as (result & Hres & Hdom & Hsm).
  { repeat constructor. }
  exists result. split; [exact Hres|]. split.
  - rewrite Hdom. cbn. set_solver.
  - rewrite Hsm. cbn [createObjectSmoother smoothers default].
    rewrite dom_empty_L. set_solver.
Defined.

(** * Top pitches of the chromagram wheel *)

Section TopPitches.

Import ChromaWheel.

Lemma insertPitch_perm (p : Pitch) (l : list Pitch) :
  insertPitch p l ≡ₚ p :: l.
Proof.
  induction l as [|q l IH]; [reflexivity|].
  cbn [insertPitch]. destruct (Qlt_bool (val p) (val q)); [|reflexivity].
  rewrite IH. apply Permutation_swap.
Qed.

Lemma sortDescending_perm (l : list Pitch) : sortDescending l ≡ₚ l.
Proof.
  induction l as [|p l IH]; [reflexivity|].
  cbn [sortDescending foldr]. fold (sortDescending l).
  rewrite insertPitch_perm. now rewrite IH.
Qed.

Lemma descending_cons (p : Pitch) (l : list Pitch) :
  (forall q, q ∈ l -> val q <= val p) -> descending l ->
  descending (p :: l).
Proof.
  intros Hp Hl [|i] [|j] a b Hij Ha Hb; cbn in Ha, Hb.
  - injection Ha as <-. injection Hb as <-. apply Qle_refl.
  - injection Ha as <-. apply Hp. eapply list_elem_of_lookup_2. exact Hb.
  - lia.
  - apply (Hl i j); [lia|assumption..].
Qed.

Lemma descending_inv (p : Pitch) (l : list Pitch) :
  descending (p :: l) ->
  (forall q, q ∈ l -> val q <= val p) /\ descending l.
Proof.
  intros H. split.
  - intros q Hq. apply list_elem_of_lookup_1 in Hq. destruct Hq as [j Hj].
    apply (H 0%nat (S j) p q); [lia|reflexivity|exact Hj].
  - intros i j a b Hij Ha Hb. apply (H (S i) (S j)); [lia|assumption..].
Qed.

Lemma insertPitch_descending (p : Pitch) (l : list Pitch) :
  descending l -> descending (insertPitch p l).
Proof.
  induction l as [|q l IH]; intros Hl.
  - cbn. apply descending_cons; [|exact Hl]. intros q Hq. inversion Hq.
  - cbn [insertPitch]. destruct (descending_inv q l Hl) as [Hq Hl'].
    destruct (Qlt_bool (val p) (val q)) eqn:E.
    + apply Qlt_bool_true in E. apply descending_cons; [|now apply IH].
      intros a Ha. rewrite insertPitch_perm in Ha.
      apply elem_of_cons in Ha. destruct Ha as [-> | Ha]; [lra|now apply Hq].
    + apply Qlt_bool_false in E. apply descending_cons; [|exact Hl].
      intros a Ha. apply elem_of_cons in Ha.
      destruct Ha as [-> | Ha]; [exact E|].
      apply Qle_trans with (val q); [now apply Hq|exact E].
Qed.

Lemma sortDescending_descending (l : list Pitch) :
  descending (sortDescending l).
Proof.
  induction l as [|p l IH].
  - intros i j a b _ Ha. destruct i; discriminate.
  - cbn [sortDescending foldr]. fold (sortDescending l).
    now apply insertPitch_descending.
Qed.

(** The first entry after sorting: the first of the greatest entries. *)
Lemma sortDescending_head (l : list Pitch) (h : Pitch) (rest : list Pitch) :
  sortDescending l = h :: rest ->
  exists before after,
    l = before ++ h :: after /\
    (forall q, q ∈ before -> val q < val h) /\
    (forall q, q ∈ after -> val q <= val h).
Proof.
  revert h rest. induction l as [|p l IH]; intros h rest Hs; [discriminate|].
  cbn [sortDescending foldr] in Hs. fold (sortDescending l) in Hs.
  destruct (sortDescending l) as [|h' s'] eqn:El.
  - assert (l = []) as ->.
    { apply Permutation_nil_r. rewrite <- El. symmetry.
      apply sortDescending_perm. }
    cbn in Hs. injection Hs as <- <-. exists [], []. repeat split.
    + intros q Hq. inversion Hq.
    + intros q Hq. inversion Hq.
  - destruct (IH h' s' eq_refl) as (before & after & -> & Hb & Ha).
    cbn [insertPitch] in Hs. destruct (Qlt_bool (val p) (val h')) eqn:E.
    + apply Qlt_bool_true in E. injection Hs as <- <-.
      exists (p :: before), after. repeat split.
      * intros q Hq. apply elem_of_cons in Hq.
        destruct Hq as [-> | Hq]; [exact E|now apply Hb].
      * exact Ha.
    + apply Qlt_bool_false in E. injection Hs as <- <-.
      exists [], (before ++ h' :: after). repeat split.
      * intros q Hq. inversion Hq.
      * intros q Hq. apply elem_of_app in Hq. destruct Hq as [Hq | Hq].
        -- pose proof (Hb q Hq). lra.
        -- apply elem_of_cons in Hq. destruct Hq as [-> | Hq]; [exact E|].
           pose proof (Ha q Hq). lra.
Qed.

Lemma indexed_lookup (chroma : list Q) (i : nat) (p : Pitch) :
  imap (fun idx val => {| val := val; idx := idx |}) chroma !! i = Some p <->
  idx p = i /\ chroma !! i = Some (val p).
Proof.
  rewrite list_lookup_imap. destruct (chroma !! i) as [v|]; cbn.
  - split.
    + intros H. injection H as <-. auto.
    + intros [Hi Hv]. injection Hv as ->. destruct p. cbn in Hi. now subst.
  - split; [discriminate|]. intros [_ H]. discriminate.
Qed.

Lemma indexed_indices (chroma : list Q) :
  idx <$> imap (fun idx val => {| val := val; idx := idx |}) chroma =
  seq 0 (length chroma).
Proof.
  apply list_eq. intros i. rewrite list_lookup_fmap, list_lookup_imap.
  destruct (chroma !! i) as [v|] eqn:E; cbn.
  - symmetry. apply lookup_seq. split; [reflexivity|].
    now apply lookup_lt_Some in E.
  - symmetry. apply lookup_seq_ge. now apply lookup_ge_None in E.
Qed.

(** X27.  getTopPitches returns the [n] strongest entries (all of them
    when there are fewer): each pairs an index of the chroma array with
    the value there, no index occurs twice, and no entry is followed by a
    stronger one. *)
Theorem top_pitches_are_strongest (chroma : list Q) (n : nat) :
  length (getTopPitches chroma n) = Nat.min n (length chroma) /\
  (forall p, p ∈ getTopPitches chroma n -> chroma !! idx p = Some (val p)) /\
  NoDup (idx <$> getTopPitches chroma n) /\
  descending (getTopPitches chroma n) /\
  (forall p q, p ∈ getTopPitches chroma n ->
     chroma !! idx q = Some (val q) ->
     idx q ∉ (idx <$> getTopPitches chroma n) -> val q <= val p).
Proof.
  unfold getTopPitches. cbv zeta.
  set (indexed := imap (fun idx val => {| val := val; idx := idx |}) chroma).
  pose proof (sortDescending_perm indexed) as Hperm.
  pose proof (sortDescending_descending indexed) as Hdesc.
  assert (Hgen : forall p, p ∈ sortDescending indexed ->
                           chroma !! idx p = Some (val p)).
  { intros p Hp. rewrite Hperm in Hp.
    apply list_elem_of_lookup_1 in Hp. destruct Hp as [i Hi].
    apply indexed_lookup in Hi. destruct Hi as [<- Hv]. exact Hv. }
  assert (Hnd : NoDup (idx <$> sortDescending indexed)).
  { rewrite Hperm. unfold indexed. rewrite indexed_indices. apply NoDup_seq. }
  split; [|split; [|split; [|split]]].
  - rewrite length_take, Hperm. unfold indexed. now rewrite length_imap.
  - intros p Hp. apply Hgen. exact (subseteq_take n _ p Hp).
  - rewrite fmap_take. exact (sublist_NoDup _ _ Hnd (sublist_take _ _)).
  - intros i j p q Hij Hp Hq.
    apply lookup_take_Some in Hp, Hq. destruct Hp as [Hp _], Hq as [Hq _].
    apply (Hdesc i j); assumption.
  - intros p q Hp Hq Hout.
    assert (Hqs : q ∈ sortDescending indexed).
    { rewrite Hperm. apply list_elem_of_lookup. exists (idx q).
      apply indexed_lookup. auto. }
    apply list_elem_of_lookup_1 in Hp, Hqs.
    destruct Hp as [i Hi], Hqs as [j Hj].
    apply lookup_take_Some in Hi. destruct Hi as [Hi Hin].
    destruct (Nat.lt_ge_cases j n) as [Hjn | Hjn].
    + exfalso. apply Hout. apply list_elem_of_fmap. exists q.
      split; [reflexivity|]. apply list_elem_of_lookup. exists j.
      apply lookup_take_Some. auto.
    + apply (Hdesc i j); [lia|assumption..].
Qed.

(** X28.  The first entry of getTopPitches is the dominant pitch: for a
    non-empty chroma array and [n >= 1] it carries the index that
    getDominantPitch returns and the value there. *)
Theorem top_pitch_is_dominant (chroma : list Q) (n : nat) :
  chroma <> [] -> (1 <= n)%nat ->
  exists m,
    chroma !! getDominantPitch chroma = Some m /\
    head (getTopPitches chroma n) =
    Some {| val := m; idx := getDominantPitch chroma |}.
Proof.
  intros Hne Hn. unfold getTopPitches. cbv zeta.
  set (indexed := imap (fun idx val => {| val := val; idx := idx |}) chroma).
  destruct (sortDescending indexed) as [|h rest] eqn:Es.
  { exfalso. apply Hne. apply length_zero_iff_nil.
    rewrite <- (length_imap (fun idx val => {| val := val; idx := idx |})).
    fold indexed. rewrite <- (sortDescending_perm indexed), Es. reflexivity. }
  destruct (sortDescending_head indexed h rest Es)
    as (before & after & Hsplit & Hb & Ha).
  assert (Hh : indexed !! length before = Some h).
  { rewrite Hsplit, lookup_app_r by lia. now rewrite Nat.sub_diag. }
  apply indexed_lookup in Hh. destruct Hh as [Hidx Hval].
  destruct (getDominantPitch_spec chroma Hne) as (m & Hm & Hmax & Hfirst).
  assert (Hdom : getDominantPitch chroma = length before).
  { apply (first_argmax_unique chroma _ _ m (val h) Hm Hval Hmax Hfirst).
    - intros i c Hc.
      assert (Hi : indexed !! i = Some {| val := c; idx := i |})
        by (apply indexed_lookup; auto).
      rewrite Hsplit in Hi. apply list_elem_of_lookup_2 in Hi.
      apply elem_of_app in Hi. destruct Hi as [Hi | Hi].
      + pose proof (Hb _ Hi) as Hlt. cbn in Hlt. lra.
      + apply elem_of_cons in Hi. destruct Hi as [<- | Hi].
        * cbn. apply Qle_refl.
        * exact (Ha _ Hi).
    - intros i c Hlt Hc.
      assert (Hi : indexed !! i = Some {| val := c; idx := i |})
        by (apply indexed_lookup; auto).
      rewrite Hsplit, lookup_app_l in Hi by exact Hlt.
      apply list_elem_of_lookup_2 in Hi. exact (Hb _ Hi). }
  exists m. split; [exact Hm|].
  destruct n as [|n]; [lia|]. cbn [take head].
  f_equal. destruct h as [v i]. cbn in Hidx, Hval. subst i.
  rewrite Hdom in Hm. rewrite Hdom. f_equal. congruence.
Qed.

Lemma top_pitch_is_dominant_witness :
  exists m,
    [1 # 10; 9 # 10; 2 # 10; 9 # 10] !! getDominantPitch
      [1 # 10; 9 # 10; 2 # 10; 9 # 10] = Some m /\
    head (getTopPitches [1 # 10; 9 # 10; 2 # 10; 9 # 10] 4) =
    Some {| val := m; idx := getDominantPitch
                               [1 # 10; 9 # 10; 2 # 10; 9 # 10] |}.
Proof.
  apply (top_pitch_is_dominant [1 # 10; 9 # 10; 2 # 10; 9 # 10] 4).
  - discriminate.
  - lia.
Defined.

Example top_pitches_example :
  idx <$> getTopPitches [1 # 10; 9 # 10; 2 # 10; 9 # 10] 3 = [1; 3; 2]%nat.
Proof. reflexivity. Qed.

End TopPitches.

(** * From smoothed feature to colour *)

(** X29.  The colour pipeline of the sketches, smoother then map then
    hslToRgb: when the raw feature values lie in [0, 1], the
    responsiveness in [0, 1] and the two ends of the hue range are not
    negative, every smoothed value maps to a hue whose colour has all
    three channels in [0, 255]. *)
Theorem smoothed_feature_colour
    (r hueAtZero hueAtOne s l : Q) (targets : list Q) :
  0 <= r -> r <= 1 ->
  Forall (fun x => 0 <= x /\ x <= 1) targets ->
  0 <= hueAtZero -> 0 <= hueAtOne ->
  0 <= s -> s <= 100 -> 0 <= l -> l <= 100 ->
  Forall (fun c =>
            exists hue,
              map c 0 1 hueAtZero hueAtOne = Some hue /\
              (0 <= Color.r (Color.hslToRgb hue s l) <= 255)%Z /\
              (0 <= Color.g (Color.hslToRgb hue s l) <= 255)%Z /\
              (0 <= Color.b (Color.hslToRgb hue s l) <= 255)%Z)
         (feed (createSmoother (Some r)) targets).
Proof.
  intros Hr0 Hr1 Hall Ha Hb Hs0 Hs1 Hl0 Hl1.
  assert (Hfeed : Forall (fun y => 0 <= y /\ y <= 1)
                         (feed (createSmoother (Some r)) targets)).
  { apply feed_within; try assumption. intros p Hp. discriminate. }
  apply (Forall_impl _ _ _ Hfeed). intros c [Hc0 Hc1].
  assert (Hspan : ~ 1 - 0 == 0) by discriminate.
  eexists. split; [apply map_value; exact Hspan|].
  apply hslToRgb_channel_bounds; try assumption.
  assert (E : (c - 0) / (1 - 0) == c) by (field).
  rewrite E.
  pose proof (lerp_between hueAtZero hueAtOne c Hc0 Hc1) as Hbt.
  unfold between, lerp in Hbt. lra.
Qed.

Lemma smoothed_feature_colour_witness :
  Forall (fun c =>
            exists hue,
              map c 0 1 240 30 = Some hue /\
              (0 <= Color.r (Color.hslToRgb hue 50 50) <= 255)%Z /\
              (0 <= Color.g (Color.hslToRgb hue 50 50) <= 255)%Z /\
              (0 <= Color.b (Color.hslToRgb hue 50 50) <= 255)%Z)
         (feed (createSmoother (Some (1 # 10))) [1 # 2; 1; 0]).
Proof.
  apply (smoothed_feature_colour (1 # 10) 240 30 50 50 [1 # 2; 1; 0]);
    try discriminate.
  repeat constructor; discriminate.
Defined.
